(** * Green Path AI: the dual-criterion A* route search

    A shallow embedding of [src/pathfinding_algo.py] (the search and the
    route statistics), [scripts/add_pollution_weights.py] (the weighting
    scheme) and the route handler of [src/app.py], with the properties the
    specification states about them.

    Numbers.  Python floats are idealised as exact rationals kept in lowest
    terms ([Qred] after every operation), so that two equal numbers are the
    same value, as two equal floats are; rounding is not modelled.

    Containers.  Dicts and sets whose iteration order is never observed are
    [gmap]/[gset]; the neighbour dict of a node, whose iteration order
    decides the order of the explored-edge trace, is an association list in
    insertion order, read by first match. *)

From Stdlib Require Import QArith Qabs Lqa PrimFloat.
From stdpp Require Import gmap strings list fin_maps.

Local Open Scope Z_scope.

(** ** Exceptions and results *)

Inductive exn :=
  | KeyError
  | TypeError
  | IndexError
  | NetworkXError.

(** [OutOfFuel] is the model's own outcome for a loop that has not finished
    within its fuel; [astar_total] shows the search never produces it. *)
Inductive res (A : Type) :=
  | Ok (a : A)
  | Raise (e : exn)
  | OutOfFuel.
Arguments Ok {A} a.
Arguments Raise {A} e.
Arguments OutOfFuel {A}.

Definition res_bind {A B} (m : res A) (k : A → res B) : res B :=
  match m with
  | Ok a => k a
  | Raise e => Raise e
  | OutOfFuel => OutOfFuel
  end.

#[global] Instance res_mbind : MBind res := λ A B k m, res_bind m k.
#[global] Instance res_mret : MRet res := λ A a, Ok a.

Definition of_option {A} (e : exn) (o : option A) : res A :=
  match o with
  | Some a => Ok a
  | None => Raise e
  end.

(** ** Numbers *)

Definition qadd (a b : Q) : Q := Qred (a + b).
Definition qmul (a b : Q) : Q := Qred (a * b).
Definition qdiv (a b : Q) : Q := Qred (a / b).

Definition qltb (a b : Q) : bool :=
  match (a ?= b)%Q with
  | Lt => true
  | _ => false
  end.

(** ** Attribute values and the multigraph *)

(** What an edge attribute can hold: a number, a string, or (OSM's
    [highway] tag) a list of strings. *)
Inductive attr :=
  | ANum (q : Q)
  | AStr (s : string)
  | AList (l : list string).

(** An operand of [+], [*], [/] or [<] must be a number. *)
Definition as_num (a : attr) : res Q :=
  match a with
  | ANum q => Ok q
  | _ => Raise TypeError
  end.

Abbreviation edge_data := (gmap string attr).

Record node_data := { node_y : Q; node_x : Q }.

(** [G.nodes] and the successor adjacency [G[u][v][key]] of a networkx
    [MultiDiGraph]. *)
Record graph := {
  nodes : gmap Z node_data;
  adj : gmap Z (list (Z * gmap Z edge_data))
}.

Fixpoint assoc {A} (v : Z) (l : list (Z * A)) : option A :=
  match l with
  | [] => None
  | (k, a) :: t => if decide (k = v) then Some a else assoc v t
  end.

(** [G.nodes[n]] *)
Definition G_node (G : graph) (n : Z) : res node_data :=
  of_option KeyError (nodes G !! n).

(** [G.neighbors(n)] *)
Definition G_neighbors (G : graph) (n : Z) : res (list Z) :=
  match adj G !! n with
  | Some nbrs => Ok (nbrs.*1)
  | None => Raise NetworkXError
  end.

(** [G[u][v][key]] *)
Definition G_edge (G : graph) (u v key : Z) : res edge_data :=
  nbrs ← of_option KeyError (adj G !! u);
  keys ← of_option KeyError (assoc v nbrs);
  of_option KeyError (keys !! key).

(** [d.get(key, dflt)] *)
Definition get (d : edge_data) (key : string) (dflt : attr) : attr :=
  default dflt (d !! key).

(** ** The frontier: [heapq] over [(f_score, g_score, node)] tuples *)

Abbreviation entry := (Q * Q * Z)%type.

(** Python's tuple comparison: first components that differ decide. *)
Definition entry_cmp (a b : entry) : comparison :=
  match (a.1.1 ?= b.1.1)%Q with
  | Eq =>
      match (a.1.2 ?= b.1.2)%Q with
      | Eq => a.2 ?= b.2
      | c => c
      end
  | c => c
  end.

Definition entry_leb (a b : entry) : bool :=
  match entry_cmp a b with
  | Gt => false
  | _ => true
  end.

Definition entry_le (a b : entry) : Prop := entry_leb a b = true.

(** [heappush(h, e)]; the heap is kept as a bag, its layout is not
    observable through [heappop]. *)
Definition heappush (h : list entry) (e : entry) : list entry := e :: h.

(** The least entry of [e :: h] and the others. *)
Fixpoint extract_min (e : entry) (h : list entry) : entry * list entry :=
  match h with
  | [] => (e, [])
  | e' :: t =>
      let '(m, r) := extract_min e' t in
      if entry_leb e m then (e, e' :: t) else (m, e :: r)
  end.

(** [heappop(h)]: the smallest item, or nothing on an empty heap (the
    search only pops under [while open_set]). *)
Definition heappop (h : list entry) : option (entry * list entry) :=
  match h with
  | [] => None
  | e :: t => Some (extract_min e t)
  end.

(** ** The search *)

Inductive cost :=
  | Finite (q : Q)
  | Infinity.

(** [(path, total_cost, explored_nodes, explored_edges)]; [None] is
    Python's [None]. *)
Abbreviation search_result :=
  (option (list Z) * cost * list Z * list (Z * Z))%type.

Record search_state := {
  open_set : list entry;
  came_from : gmap Z Z;
  g_scores : gmap Z Q;
  explored_nodes : list Z;
  explored_edges : list (Z * Z);
  closed_set : gset Z
}.

(** [MAX_SPEED_MPS = 80 / 3.6] *)
Definition MAX_SPEED_MPS : Q := qdiv 80 (36 # 10).

(** The scaling of the straight-line distance by the goal type. *)
Definition h_score (weight : string) (h_dist : Q) : Q :=
  if decide (weight = "time") then qdiv h_dist MAX_SPEED_MPS
  else if decide (weight = "pollution") then h_dist
  else h_dist.

(** [edge_data.get(weight, edge_data.get('length', 100))] *)
Definition edge_cost (weight : string) (d : edge_data) : attr :=
  get d weight (get d "length" (ANum 100)).

(** The [while curr in came_from] loop of the path reconstruction. *)
Fixpoint walk_back (fuel : nat) (cf : gmap Z Z) (curr : Z) (path : list Z)
    : res (list Z * Z) :=
  match cf !! curr with
  | None => Ok (path, curr)
  | Some prev =>
      match fuel with
      | O => OutOfFuel
      | S fuel' => walk_back fuel' cf prev (path ++ [curr])
      end
  end.

Section search.

(** [haversine_distance lat1 lon1 lat2 lon2]: the great-circle distance
    in metres.  Its body is trigonometry on floats; the search only uses
    its value, so it is a parameter here. *)
Variable haversine_distance : Q → Q → Q → Q → Q.

Variable G : graph.
Variables start_node end_node : Z.
Variable weight : string.

(** The heuristic block of the relaxation, for the node [n]. *)
Definition heuristic (end_coords : Q * Q) (n : Z) : res Q :=
  neighbor_data ← G_node G n;
  let h_dist :=
    haversine_distance (node_y neighbor_data) (node_x neighbor_data)
      end_coords.1 end_coords.2 in
  Ok (h_score weight h_dist).

(** The body of [for neighbor in G.neighbors(current)]. *)
Definition relax (end_coords : Q * Q) (current : Z) (current_g : Q)
    (st : search_state) (neighbor : Z) : res search_state :=
  if decide (neighbor ∈ closed_set st) then Ok st
  else
    edge_data ← G_edge G current neighbor 0;
    edge_cost ← as_num (edge_cost weight edge_data);
    let tentative_g := qadd current_g edge_cost in
    let better :=
      match g_scores st !! neighbor with
      | None => true
      | Some g => qltb tentative_g g
      end in
    if better then
      h ← heuristic end_coords neighbor;
      let final_f := qadd tentative_g h in
      Ok {| open_set := heappush (open_set st) (final_f, tentative_g, neighbor);
            came_from := <[neighbor := current]> (came_from st);
            g_scores := <[neighbor := tentative_g]> (g_scores st);
            explored_nodes := explored_nodes st;
            explored_edges := explored_edges st ++ [(current, neighbor)];
            closed_set := closed_set st |}
    else Ok st.

Fixpoint relax_all (end_coords : Q * Q) (current : Z) (current_g : Q)
    (st : search_state) (nbrs : list Z) : res search_state :=
  match nbrs with
  | [] => Ok st
  | neighbor :: rest =>
      st' ← relax end_coords current current_g st neighbor;
      relax_all end_coords current current_g st' rest
  end.

(** The goal branch: rebuild the path from [came_from]. *)
Definition reconstruct (cf : gmap Z Z) (explored : list Z) : res (list Z) :=
  '(path, _) ← walk_back (length explored) cf end_node [];
  Ok (rev (path ++ [start_node])).

(** One turn of [while open_set]: a result, or the next state. *)
Definition astar_step (end_coords : Q * Q) (st : search_state)
    : res (search_result + search_state) :=
  match heappop (open_set st) with
  | None =>
      Ok (inl (None, Infinity, explored_nodes st, explored_edges st))
  | Some ((f_score, current_g, current), rest) =>
      if decide (current ∈ closed_set st) then
        Ok (inr {| open_set := rest;
                   came_from := came_from st;
                   g_scores := g_scores st;
                   explored_nodes := explored_nodes st;
                   explored_edges := explored_edges st;
                   closed_set := closed_set st |})
      else
        let explored := explored_nodes st ++ [current] in
        if decide (current = end_node) then
          path ← reconstruct (came_from st) explored;
          Ok (inl (Some path, Finite current_g, explored, explored_edges st))
        else
          nbrs ← G_neighbors G current;
          st' ← relax_all end_coords current current_g
                 {| open_set := rest;
                    came_from := came_from st;
                    g_scores := g_scores st;
                    explored_nodes := explored;
                    explored_edges := explored_edges st;
                    closed_set := {[current]} ∪ closed_set st |} nbrs;
          Ok (inr st')
  end.

Fixpoint astar_loop (fuel : nat) (end_coords : Q * Q) (st : search_state)
    : res search_result :=
  match fuel with
  | O => OutOfFuel
  | S fuel' =>
      r ← astar_step end_coords st;
      match r with
      | inl result => Ok result
      | inr st' => astar_loop fuel' end_coords st'
      end
  end.

Definition initial_state : search_state :=
  {| open_set := [(0%Q, 0%Q, start_node)];
     came_from := ∅;
     g_scores := {[start_node := 0%Q]};
     explored_nodes := [];
     explored_edges := [];
     closed_set := ∅ |}.

(** Every turn of the loop either closes a node, after which none of its
    out-neighbours is pushed again, or drops a frontier entry: the number
    of adjacency entries plus two bounds the turns. *)
Definition search_fuel : nat :=
  S (S (sum_list ((λ p, length p.2) <$> map_to_list (adj G)))).

Definition astar_pathfinding : res search_result :=
  end_node_data ← G_node G end_node;
  let end_coords := (node_y end_node_data, node_x end_node_data) in
  astar_loop search_fuel end_coords initial_state.

End search.

(** ** Route statistics *)

(** Keys of the [road_types] dict: Python compares numbers by value and a
    list is not hashable. *)
Definition attr_eqb (a b : attr) : bool :=
  match a, b with
  | ANum p, ANum q => Qeq_bool p q
  | AStr s, AStr t => bool_decide (s = t)
  | _, _ => false
  end.

Definition hashable (a : attr) : res attr :=
  match a with
  | AList _ => Raise TypeError
  | _ => Ok a
  end.

(** [road_types[key] = road_types.get(key, 0) + 1], the dict in insertion
    order. *)
Fixpoint count_up (key : attr) (road_types : list (attr * Z))
    : list (attr * Z) :=
  match road_types with
  | [] => [(key, 0 + 1)]
  | (k, n) :: t =>
      if attr_eqb k key then (k, n + 1) :: t else (k, n) :: count_up key t
  end.

Record totals := {
  total_distance : Q;
  total_time : Q;
  total_pollution : Q;
  road_types_acc : list (attr * Z)
}.

Record route_stats := {
  name : string;
  distance_km : Q;
  time_minutes : Q;
  pollution_score : Q;
  num_segments : Z;
  road_types : list (attr * Z)
}.

(** The [for i in range(len(path) - 1)] loop, on the pairs
    [(path[i], path[i+1])]. *)
Fixpoint stats_loop (G : graph) (path : list Z) (acc : totals) : res totals :=
  match path with
  | u :: (v :: _) as rest =>
      edge_data ← G_edge G u v 0;
      distance ← as_num (get edge_data "length" (ANum 0));
      time ← as_num (get edge_data "time" (ANum 0));
      pollution ← as_num (get edge_data "pollution" (ANum 0));
      road_type ← hashable (get edge_data "road_type" (AStr "unknown"));
      stats_loop G rest
        {| total_distance := qadd (total_distance acc) distance;
           total_time := qadd (total_time acc) time;
           total_pollution := qadd (total_pollution acc) pollution;
           road_types_acc := count_up road_type (road_types_acc acc) |}
  | _ => Ok acc
  end.

Definition calculate_route_stats (G : graph) (path : list Z)
    (route_name : string) : res route_stats :=
  t ← stats_loop G path
        {| total_distance := 0; total_time := 0; total_pollution := 0;
           road_types_acc := [] |};
  Ok {| name := route_name;
        distance_km := qdiv (total_distance t) 1000;
        time_minutes := qdiv (total_time t) 60;
        pollution_score := total_pollution t;
        num_segments := Z.of_nat (length path) - 1;
        road_types := road_types_acc t |}.

(** The sum of one attribute over the key-0 edges of consecutive path
    nodes, accumulated as [calculate_route_stats] does it. *)
Fixpoint path_sum (G : graph) (key : string) (path : list Z) (acc : Q)
    : res Q :=
  match path with
  | u :: (v :: _) as rest =>
      edge_data ← G_edge G u v 0;
      c ← as_num (get edge_data key (ANum 0));
      path_sum G key rest (qadd acc c)
  | _ => Ok acc
  end.

(** ** The weighting scheme *)

Definition POLLUTION_FACTORS : list (string * Q) :=
  [("living_street", 3); ("busway", 20);
   ("residential", 25 # 10); ("unclassified", 22 # 10);
   ("primary", 16 # 10); ("primary_link", 17 # 10);
   ("secondary", 18 # 10); ("secondary_link", 19 # 10);
   ("tertiary", 2); ("tertiary_link", 21 # 10);
   ("motorway", 1); ("motorway_link", 15 # 10);
   ("trunk", 12 # 10); ("trunk_link", 15 # 10);
   ("default", 18 # 10)]%Q.

Definition speed_limits_kmh : list (string * Q) :=
  [("living_street", 10); ("busway", 1);
   ("residential", 20); ("unclassified", 20);
   ("primary", 40); ("primary_link", 20);
   ("secondary", 30); ("secondary_link", 20);
   ("tertiary", 25); ("tertiary_link", 15);
   ("motorway", 80); ("motorway_link", 40);
   ("trunk", 60); ("trunk_link", 30);
   ("default", 30)]%Q.

Fixpoint table_lookup (key : string) (t : list (string * Q)) : option Q :=
  match t with
  | [] => None
  | (k, v) :: rest => if decide (k = key) then Some v else table_lookup key rest
  end.

(** [table.get(highway, table['default'])]; only a string can be a key of
    the tables. *)
Definition table_get (t : list (string * Q)) (highway : attr) : res Q :=
  dflt ← of_option KeyError (table_lookup "default" t);
  match highway with
  | AStr s => Ok (default dflt (table_lookup s t))
  | _ => Ok dflt
  end.

Definition edge_count (nbrs : list (Z * gmap Z edge_data)) : Z :=
  foldr (λ p acc, Z.of_nat (size p.2) + acc) 0 nbrs.

(** [G.degree(n)]: outgoing plus incoming edges, parallel edges counted. *)
Definition G_degree (G : graph) (n : Z) : Z :=
  edge_count (default [] (adj G !! n)) +
  map_fold (λ _ nbrs acc,
              edge_count (filter (λ p, p.1 = n) nbrs) + acc) 0 (adj G).

(** [length * pollution_multiplier * intersection_penalty] *)
Definition pollution_of (length pollution_multiplier intersection_penalty : Q)
    : Q :=
  qmul (qmul length pollution_multiplier) intersection_penalty.

(** [(length / 1000) / road_speed * 3600] *)
Definition time_of (length road_speed : Q) : Q :=
  qmul (qdiv (qdiv length 1000) road_speed) 3600.

(** The body of [for u, v, key, data in G.edges(keys=True, data=True)]:
    the edge's attribute dict after the four assignments. *)
Definition weigh_edge (G : graph) (u v : Z) (data : edge_data)
    : res edge_data :=
  highway ← match get data "highway" (AStr "default") with
            | AList l => of_option IndexError (AStr <$> head l)
            | h => Ok h
            end;
  let length := get data "length" (ANum 100) in
  pollution_multiplier ← table_get POLLUTION_FACTORS highway;
  let intersection_penalty :=
    if bool_decide (G_degree G u > 2 ∨ G_degree G v > 2) then (11 # 10)%Q
    else 1%Q in
  length ← as_num length;
  let pollution_score :=
    pollution_of length pollution_multiplier intersection_penalty in
  road_speed ← table_get speed_limits_kmh highway;
  let time_seconds := time_of length road_speed in
  Ok (<["time" := ANum time_seconds]>
       (<["road_type" := highway]>
         (<["pollution_multiplier" := ANum pollution_multiplier]>
           (<["pollution" := ANum pollution_score]> data)))).

(** [G.edges(keys=True, data=True)] *)
Definition G_edges (G : graph) : list (Z * Z * Z * edge_data) :=
  '(u, nbrs) ← map_to_list (adj G);
  '(v, keys) ← nbrs;
  '(key, data) ← map_to_list keys;
  [(u, v, key, data)].

Fixpoint first_raise {A} (l : list (res A)) : option exn :=
  match l with
  | [] => None
  | Raise e :: _ => Some e
  | _ :: t => first_raise t
  end.

Definition from_ok {A} (dflt : A) (r : res A) : A :=
  match r with
  | Ok a => a
  | _ => dflt
  end.

Definition map_edges (f : Z → Z → edge_data → edge_data) (G : graph)
    : graph :=
  {| nodes := nodes G;
     adj := map_imap (λ u (nbrs : list (Z * gmap Z edge_data)),
              Some (map (λ p : Z * gmap Z edge_data,
                           (p.1, (f u p.1 <$> p.2) : gmap Z edge_data))
                      nbrs)) (adj G) |}.

(** The loop over all edges: the first edge whose body raises aborts the
    run, otherwise every edge carries its new attributes. *)
Definition add_pollution_weights (G : graph) : res graph :=
  match first_raise ((λ e : Z * Z * Z * edge_data,
                        weigh_edge G e.1.1.1 e.1.1.2 e.2) <$> G_edges G) with
  | Some e => Raise e
  | None => Ok (map_edges (λ u v d, from_ok d (weigh_edge G u v d)) G)
  end.

(** ** The route handler *)

Record route_json := {
  rj_path : list (Q * Q);
  rj_stats : route_stats;
  rj_explored : list (Q * Q);
  rj_explored_edges : list ((Q * Q) * (Q * Q))
}.

Inductive response :=
  | InvalidCoordinates                                  (* 400 *)
  | NoRouteFound                                        (* 404 *)
  | Routes (time_route pollution_route : route_json).   (* 200 *)

Fixpoint mapM {A B} (f : A → res B) (l : list A) : res (list B) :=
  match l with
  | [] => Ok []
  | a :: t => b ← f a; bs ← mapM f t; Ok (b :: bs)
  end.

Definition path_to_coords (G : graph) (path : list Z) : res (list (Q * Q)) :=
  mapM (λ node, d ← G_node G node; Ok (node_y d, node_x d)) path.

(** Python's [not route] for a route that is [None] or a list. *)
Definition falsy (route : option (list Z)) : bool :=
  match route with
  | None | Some [] => true
  | Some _ => false
  end.

Section handler.

(** [ox.nearest_nodes(G, X, Y)] of osmnx, and the distance function of the
    search. *)
Variable nearest_nodes : graph → Q → Q → Z.
Variable haversine_distance : Q → Q → Q → Q → Q.

Definition route_entry (G : graph) (route : list Z) (stats : route_stats)
    (explored : list Z) (edges : list (Z * Z)) : res route_json :=
  path ← path_to_coords G route;
  expl ← path_to_coords G explored;
  edges' ← mapM (λ e : Z * Z,
                   u ← path_to_coords G [e.1];
                   v ← path_to_coords G [e.2];
                   a ← of_option IndexError (head u);
                   b ← of_option IndexError (head v);
                   Ok (a, b)) edges;
  Ok {| rj_path := path; rj_stats := stats; rj_explored := expl;
        rj_explored_edges := edges' |}.

(** [get_route]; a query parameter that is missing or not a float is
    [None]. *)
Definition get_route (G : graph)
    (start_lat start_lon end_lat end_lon : option Q) : res response :=
  match start_lat, start_lon, end_lat, end_lon with
  | Some start_lat, Some start_lon, Some end_lat, Some end_lon =>
      let start_node := nearest_nodes G start_lon start_lat in
      let end_node := nearest_nodes G end_lon end_lat in
      '(time_route, _, time_explored, time_edges) ←
        astar_pathfinding haversine_distance G start_node end_node "time";
      '(poll_route, _, poll_explored, poll_edges) ←
        astar_pathfinding haversine_distance G start_node end_node "pollution";
      if falsy time_route || falsy poll_route then Ok NoRouteFound
      else
        let time_route := default [] time_route in
        let poll_route := default [] poll_route in
        time_stats ← calculate_route_stats G time_route "Fastest Route";
        poll_stats ← calculate_route_stats G poll_route "Greenest Route";
        t ← route_entry G time_route time_stats time_explored time_edges;
        p ← route_entry G poll_route poll_stats poll_explored poll_edges;
        Ok (Routes t p)
  | _, _, _, _ => Ok InvalidCoordinates
  end.

End handler.

(** ** The scores in binary64

    The formulas on which the admissibility of the heuristic turns, over
    binary64 floats as Python computes them: the constant and the scaling
    of the search, the travel time and the pollution score of the weighting
    scheme.  A decimal literal is read as the nearest binary64 value, as
    Python reads it. *)

#[local] Set Warnings "-inexact-float".

Module Float64.

(** [MAX_SPEED_MPS = 80 / 3.6] *)
Definition MAX_SPEED_MPS : float := (80 / 3.6)%float.

(** The scaling of the straight-line distance by the goal type. *)
Definition h_score (weight : string) (h_dist : float) : float :=
  if decide (weight = "time") then (h_dist / MAX_SPEED_MPS)%float
  else if decide (weight = "pollution") then h_dist
  else h_dist.

(** [(length / 1000) / road_speed * 3600] *)
Definition time_of (length road_speed : float) : float :=
  (length / 1000 / road_speed * 3600)%float.

(** [length * pollution_multiplier * intersection_penalty] *)
Definition pollution_of (length pollution_multiplier intersection_penalty
    : float) : float :=
  (length * pollution_multiplier * intersection_penalty)%float.

End Float64.

(** * Specification side *)

(** The pairs [(path[i], path[i+1])]. *)
Definition consecutive (path : list Z) : list (Z * Z) :=
  zip path (tail path).

(** A number in lowest terms. *)
Definition canon (q : Q) : Prop := Qred q = q.

Section invariant.

Variable haversine_distance : Q → Q → Q → Q → Q.
Variable G : graph.
Variables start_node end_node : Z.
Variable weight : string.
Variable end_coords : Q * Q.

(** The predecessor links of closed nodes form a tree rooted at the start:
    [tree_path cf C n l g] is the branch [l] from the start to [n], all of
    it inside [C], with [g] the cost accumulated along its key-0 edges. *)
Inductive tree_path (cf : gmap Z Z) (C : gset Z) : Z → list Z → Q → Prop :=
  | tp_start :
      start_node ∈ C → tree_path cf C start_node [start_node] 0
  | tp_step n p l gp d c :
      n ∈ C → cf !! n = Some p → tree_path cf C p l gp →
      G_edge G p n 0 = Ok d → as_num (edge_cost weight d) = Ok c →
      tree_path cf C n (l ++ [n]) (qadd gp c).

(** What holds of the search state from the first expansion on. *)
Record running (st : search_state) : Prop := {
  run_start : start_node ∈ closed_set st;
  run_cf : ∀ n p, came_from st !! n = Some p →
    p ∈ closed_set st ∧ n ≠ start_node ∧
    ∃ d c gp, G_edge G p n 0 = Ok d ∧ as_num (edge_cost weight d) = Ok c ∧
      g_scores st !! p = Some gp ∧ g_scores st !! n = Some (qadd gp c);
  run_closed : ∀ n, n ∈ closed_set st →
    ∃ l g, tree_path (came_from st) (closed_set st) n l g ∧
      g_scores st !! n = Some g ∧
      (length l ≤ length (explored_nodes st))%nat;
  run_heap : ∀ f g n, (f, g, n) ∈ open_set st → n ∉ closed_set st →
    is_Some (came_from st !! n) ∧ canon g ∧
    ∃ g0 hn, g_scores st !! n = Some g0 ∧ (g0 <= g)%Q ∧
      heuristic haversine_distance G weight end_coords n = Ok hn ∧
      f = qadd g hn;
  run_best : ∀ n g0, n ∉ closed_set st → g_scores st !! n = Some g0 →
    ∃ hn, heuristic haversine_distance G weight end_coords n = Ok hn ∧
      (qadd g0 hn, g0, n) ∈ open_set st;
  run_explored : NoDup (explored_nodes st) ∧
    ∀ n, n ∈ explored_nodes st ↔ n ∈ closed_set st
}.

Definition search_inv (st : search_state) : Prop :=
  st = initial_state start_node ∨ running st.

(** What a returned tuple is: a branch of the predecessor tree with its
    cost, or no path with infinite cost; the trace without repetition. *)
Definition good_result (r : search_result) : Prop :=
  match r with
  | (Some path, Finite c, explored, _) =>
      (∃ cf C, tree_path cf C end_node path c) ∧ NoDup explored
  | (None, Infinity, explored, _) => NoDup explored
  | _ => False
  end.

End invariant.

(** The state in which the neighbours of a popped node are relaxed. *)
Definition closed_state (st : search_state) (rest : list entry) (current : Z)
    : search_state :=
  {| open_set := rest;
     came_from := came_from st;
     g_scores := g_scores st;
     explored_nodes := explored_nodes st ++ [current];
     explored_edges := explored_edges st;
     closed_set := {[current]} ∪ closed_set st |}.

(** ** Example scenarios *)

(** A computable stand-in for the great-circle distance on small examples:
    the taxicab distance of the coordinates. *)
Definition taxicab (lat1 lon1 lat2 lon2 : Q) : Q :=
  Qred (Qabs (lat1 - lat2) + Qabs (lon1 - lon2)).

Definition at_coords (lat lon : Q) : node_data :=
  {| node_y := lat; node_x := lon |}.

Definition timed_edge (time pollution : Q) : edge_data :=
  <["time" := ANum time]> (<["pollution" := ANum pollution]> ∅).

(** The line A-B-C-D of the specification's concrete scenario, with
    [time = [10, 5, 20]] and [pollution = [5, 15, 5]]. *)
Definition line_graph : graph :=
  {| nodes := list_to_map [(1, at_coords 0 0); (2, at_coords 0 1);
                           (3, at_coords 0 2); (4, at_coords 0 3)];
     adj := list_to_map [(1, [(2, {[0 := timed_edge 10 5]})]);
                         (2, [(3, {[0 := timed_edge 5 15]})]);
                         (3, [(4, {[0 := timed_edge 20 5]})]);
                         (4, [])] |}.

(** A nearest-node lookup for the line: longitude 0 is node 4, any other
    longitude node 1. *)
Definition nearest_end (G : graph) (X Y : Q) : Z :=
  if Qeq_bool X 0 then 4 else 1.

(** Two parallel edges from 1 to 2: key 0 costs 10, key 1 costs 3, under
    both criteria. *)
Definition parallel_graph : graph :=
  {| nodes := list_to_map [(1, at_coords 0 0); (2, at_coords 0 1)];
     adj := list_to_map [(1, [(2, {[0 := timed_edge 10 10;
                                    1 := timed_edge 3 3]})]);
                         (2, [])] |}.

(** The same nodes with the key-0 edge alone. *)
Definition single_graph : graph :=
  {| nodes := list_to_map [(1, at_coords 0 0); (2, at_coords 0 1)];
     adj := list_to_map [(1, [(2, {[0 := timed_edge 10 10]})]); (2, [])] |}.

(** Two nodes whose only edge carries no attribute at all. *)
Definition bare_graph : graph :=
  {| nodes := list_to_map [(1, at_coords 0 0); (2, at_coords 0 1)];
     adj := list_to_map [(1, [(2, {[0 := ∅]})]); (2, [])] |}.

(** ** The parallel-edge policy as the specification words it *)

Definition qmin (a b : Q) : Q := if qltb b a then b else a.

(** The least cost, under the criterion, among all the edges from [u] to
    [v]. *)
Definition min_edge_cost (G : graph) (weight : string) (u v : Z) : res Q :=
  nbrs ← of_option KeyError (adj G !! u);
  keys ← of_option KeyError (assoc v nbrs);
  costs ← mapM (λ kd : Z * edge_data, as_num (edge_cost weight kd.2))
            (map_to_list keys);
  match costs with
  | [] => Raise KeyError
  | c :: cs => Ok (foldr qmin c cs)
  end.

(** The cost of a path when every step takes the least-cost edge. *)
Fixpoint min_route_cost (G : graph) (weight : string) (path : list Z)
    (acc : Q) : res Q :=
  match path with
  | u :: (v :: _) as rest =>
      c ← min_edge_cost G weight u v;
      min_route_cost G weight rest (qadd acc c)
  | _ => Ok acc
  end.

(** "The search selects the minimum-cost edge when relaxing": the cost it
    returns is the cost of its path over least-cost edges. *)
Definition uses_min_cost_edge (haversine_distance : Q → Q → Q → Q → Q)
    (G : graph) (start_node end_node : Z) (weight : string) : Prop :=
  ∀ path c explored edges,
    astar_pathfinding haversine_distance G start_node end_node weight
      = Ok (Some path, Finite c, explored, edges) →
    min_route_cost G weight path 0 = Ok c.

(** The cost of the key-0 edge from [u] to [v] under the criterion, with
    the search's fallback to [length]. *)
Definition key0_cost (G : graph) (weight : string) (u v : Z) : res Q :=
  d ← G_edge G u v 0;
  as_num (edge_cost weight d).

(** The cost of a path when every step takes the key-0 edge. *)
Fixpoint key0_route_cost (G : graph) (weight : string) (path : list Z)
    (acc : Q) : res Q :=
  match path with
  | u :: (v :: _) as rest =>
      c ← key0_cost G weight u v;
      key0_route_cost G weight rest (qadd acc c)
  | _ => Ok acc
  end.

(** What the search reads of the adjacency: the neighbours in order, and
    for each the key-0 edge, if any. *)
Definition key0_view (G : graph) : gmap Z (list (Z * option edge_data)) :=
  (λ nbrs : list (Z * gmap Z edge_data),
     (λ p : Z * gmap Z edge_data, (p.1, p.2 !! 0)) <$> nbrs) <$> adj G.

(** ** The fallback for a missing attribute as the specification words it *)

(** "Converted appropriately to the criterion's units", for the time
    criterion: the fallback cost is the travel time of the fallback length
    at one of the speeds of the weighting scheme. *)
Definition time_fallback_converted (d : edge_data) : Prop :=
  d !! "time" = None →
  ∃ len highway speed,
    get d "length" (ANum 100) = ANum len ∧
    table_lookup highway speed_limits_kmh = Some speed ∧
    edge_cost "time" d = ANum (time_of len speed).

(** ** Termination, reachability and well-formed graphs *)

(** The adjacency entries of the nodes not yet closed: what the loop can
    still push. *)
Definition pending (G : graph) (C : gset Z) : nat :=
  sum_list ((λ p : Z * list (Z * gmap Z edge_data),
               if decide (p.1 ∈ C) then 0%nat else length p.2)
              <$> map_to_list (adj G)).

Definition measure (G : graph) (st : search_state) : nat :=
  (length (open_set st) + pending G (closed_set st))%nat.

(** [v] is a neighbour of [u]. *)
Definition successor (G : graph) (u v : Z) : Prop :=
  ∃ nbrs, adj G !! u = Some nbrs ∧ v ∈ nbrs.*1.

(** There is a directed path from [u] to [v]. *)
Definition reachable (G : graph) : Z → Z → Prop := rtc (successor G).

(** The graph invariants the search relies on: every neighbour is a node
    with coordinates and an adjacency entry of its own, reached by a key-0
    edge whose cost under the criterion is a number. *)
Definition wf_graph (G : graph) (weight : string) : Prop :=
  ∀ u v, successor G u v →
    is_Some (nodes G !! v) ∧ is_Some (adj G !! v) ∧
    ∃ d c, G_edge G u v 0 = Ok d ∧ as_num (edge_cost weight d) = Ok c.

(** "Unreachable target: not an error", as the specification words it,
    for any graph: without a directed path to the goal the search returns
    no path and infinite cost. *)
Definition unreachable_not_an_error (haversine_distance : Q → Q → Q → Q → Q)
    (G : graph) (start_node end_node : Z) (weight : string) : Prop :=
  ¬ reachable G start_node end_node →
  ∃ explored edges,
    astar_pathfinding haversine_distance G start_node end_node weight
      = Ok (None, Infinity, explored, edges).

(** Three nodes; the only edge goes from 1 to 2 and is stored under key 1,
    and node 3 is detached. *)
Definition detached_graph : graph :=
  {| nodes := list_to_map [(1, at_coords 0 0); (2, at_coords 0 1);
                           (3, at_coords 0 2)];
     adj := list_to_map [(1, [(2, {[1 := timed_edge 3 3]})]);
                         (2, []); (3, [])] |}.

Definition heap_in_graph (G : graph) (st : search_state) : Prop :=
  Forall (λ e : entry, is_Some (adj G !! e.2)) (open_set st).

(** ** Layouts of the frontier *)

Definition entry_canon (e : entry) : Prop := canon e.1.1 ∧ canon e.1.2.

(** Two states that differ in the arrangement of the frontier only. *)
Definition same_frontier (st1 st2 : search_state) : Prop :=
  open_set st1 ≡ₚ open_set st2 ∧
  came_from st1 = came_from st2 ∧
  g_scores st1 = g_scores st2 ∧
  explored_nodes st1 = explored_nodes st2 ∧
  explored_edges st1 = explored_edges st2 ∧
  closed_set st1 = closed_set st2.

(** [a] sorts before [b], or is [b]: lower [f], then lower [g], then lower
    node identifier. *)
Definition tuple_le (a b : entry) : Prop :=
  (a.1.1 < b.1.1 ∨
   (a.1.1 == b.1.1 ∧ (a.1.2 < b.1.2 ∨ (a.1.2 == b.1.2 ∧ a.2 ≤ b.2))))%Q.

(** Three frontier entries of equal or near-equal score, and a state
    holding them in a given arrangement. *)
Definition tied_entries : list entry :=
  [(3%Q, 1%Q, 2); (2%Q, 2%Q, 3); (2%Q, 1%Q, 4)].

Definition frontier_state (h : list entry) : search_state :=
  {| open_set := h;
     came_from := ∅;
     g_scores := {[1 := 0%Q]};
     explored_nodes := [1];
     explored_edges := [];
     closed_set := {[1]} |}.

(** The states of a run of the search: the initial one, and what each
    turn of the loop makes of the one before. *)
Inductive in_run (haversine_distance : Q → Q → Q → Q → Q) (G : graph)
    (start_node end_node : Z) (weight : string) (end_coords : Q * Q)
    : search_state → Prop :=
  | run_initial :
      in_run haversine_distance G start_node end_node weight end_coords
        (initial_state start_node)
  | run_turn st st' :
      in_run haversine_distance G start_node end_node weight end_coords st →
      astar_step haversine_distance G start_node end_node weight end_coords st
        = Ok (inr st') →
      in_run haversine_distance G start_node end_node weight end_coords st'.

(** A frontier entry as the search builds it: the start with both scores
    zero, or [(g + h, g, node)] with [h] the heuristic of the node. *)
Definition scored (haversine_distance : Q → Q → Q → Q → Q) (G : graph)
    (start_node : Z) (weight : string) (end_coords : Q * Q) (e : entry)
    : Prop :=
  e = (0%Q, 0%Q, start_node) ∨
  ∃ hn, heuristic haversine_distance G weight end_coords e.2 = Ok hn ∧
        e.1.1 = qadd e.1.2 hn.

(** ** Admissibility *)


(** "The heuristic never exceeds the true remaining cost" under the time
    criterion, with the numbers the code computes, at a node whose only
    way to the goal is one edge: the goal is [h_dist] metres away, the edge
    is at least as long and has one of the scheme's speeds, at most 80. *)
Definition float_admissible (h_dist length road_speed : float) : Prop :=
  (h_dist <=? length)%float = true →
  (road_speed <=? 80)%float = true →
  (Float64.h_score "time" h_dist <=? Float64.time_of length road_speed)%float
    = true.

(** What [haversine_distance] returns for the points (0, 0) and
    (0, 0.0015), 0.0015 degrees of longitude apart on the equator. *)
Definition equator_span : float := 166.79238996683813%float.

(** A one-edge road: 150 metres of motorway between two nodes 100 apart. *)
Definition raw_road : graph :=
  {| nodes := list_to_map [(1, at_coords 0 0); (2, at_coords 0 100)];
     adj := list_to_map
              [(1, [(2, {[0 := <["length" := ANum 150]>
                                 (<["highway" := AStr "motorway"]> ∅)]})]);
               (2, [])] |}.

(** The road after the weighting scheme has run. *)
Definition weighted_road : graph :=
  from_ok raw_road (add_pollution_weights raw_road).

(** * Further specification: traces, completeness, optimality *)

(** A route from the start over the edges the search reads: key-0 edges
    with their cost under the criterion (the fallback included), summed. *)
Inductive route (G : graph) (weight : string) (start_node : Z)
    : Z → Q → Prop :=
  | route_start : route G weight start_node start_node 0
  | route_step u v d c cu :
      route G weight start_node u cu →
      G_edge G u v 0 = Ok d → as_num (edge_cost weight d) = Ok c →
      route G weight start_node v (cu + c).

(** What the traces record, from the first expansion on: branches of the
    predecessor tree repeat no node, an explored edge leaves a closed node
    along a key-0 edge, and every predecessor link was recorded as an
    explored edge. *)
Record tracing (G : graph) (start_node : Z) (weight : string)
    (st : search_state) : Prop := {
  tr_simple : ∀ n, n ∈ closed_set st →
    ∃ l g, tree_path G start_node weight (came_from st) (closed_set st) n l g ∧
           NoDup l;
  tr_edges : ∀ u v, (u, v) ∈ explored_edges st →
    u ∈ closed_set st ∧ v ≠ start_node ∧ u ≠ v ∧
    ∃ d, G_edge G u v 0 = Ok d;
  tr_links : ∀ n p, came_from st !! n = Some p →
    (p, n) ∈ explored_edges st;
  tr_first : head (explored_nodes st) = Some start_node
}.

(** What the traces of a returned tuple show. *)
Definition traced_result (G : graph) (start_node end_node : Z)
    (r : search_result) : Prop :=
  let '(path, _, explored, edges) := r in
  head explored = Some start_node ∧
  (∀ n, n ∈ explored → reachable G start_node n) ∧
  (∀ u v, (u, v) ∈ edges →
     u ∈ explored ∧ v ≠ start_node ∧ u ≠ v ∧ ∃ d, G_edge G u v 0 = Ok d) ∧
  match path with
  | Some path =>
      NoDup path ∧ last explored = Some end_node ∧
      (∀ n, n ∈ path → n ∈ explored) ∧
      (∀ u v, (u, v) ∈ consecutive path → (u, v) ∈ edges)
  | None => True
  end.

(** Every neighbour of a closed node is closed or has a recorded cost no
    worse than through that node; [todo] are the neighbours of the node
    being expanded that the [for] loop has not reached yet. *)
Definition relaxed (G : graph) (weight : string) (st : search_state)
    (current : Z) (todo : list Z) : Prop :=
  ∀ x y, x ∈ closed_set st → successor G x y →
    (x = current → y ∉ todo) →
    y ∈ closed_set st ∨
    ∃ gy, g_scores st !! y = Some gy ∧
      ∀ d c gx, G_edge G x y 0 = Ok d → as_num (edge_cost weight d) = Ok c →
        g_scores st !! x = Some gx → (gy <= gx + c)%Q.

(** The recorded cost of a closed node is the least cost of a route to
    it. *)
Definition settled (G : graph) (start_node : Z) (weight : string)
    (st : search_state) : Prop :=
  ∀ n g w, n ∈ closed_set st → g_scores st !! n = Some g →
    route G weight start_node n w → (g <= w)%Q.

(** A heuristic is consistent when it drops along an edge by no more than
    the edge costs; [h] is the value the search computes wherever it
    computes one. *)
Definition consistent (haversine_distance : Q → Q → Q → Q → Q) (G : graph)
    (weight : string) (end_coords : Q * Q) (h : Z → Q) : Prop :=
  (∀ n hn, heuristic haversine_distance G weight end_coords n = Ok hn →
     (hn == h n)%Q) ∧
  ∀ u v d c, G_edge G u v 0 = Ok d → as_num (edge_cost weight d) = Ok c →
    (h u <= c + h v)%Q.

(** What holds between turns of the loop: the goal is never closed, and
    the neighbours of every closed node have been relaxed. *)
Definition expanded (G : graph) (end_node : Z) (weight : string)
    (st : search_state) : Prop :=
  (end_node ∉ closed_set st) ∧ relaxed G weight st end_node [].

(** Between turns of a search with a consistent heuristic. *)
Definition optimal_state (G : graph) (start_node end_node : Z)
    (weight : string) (st : search_state) : Prop :=
  expanded G end_node weight st ∧ settled G start_node weight st.

(** The heuristic of the search as a function of the node: the scaled
    distance to the goal, 0 for a node without coordinates (for which the
    search computes none). *)
Definition heuristic_at (haversine_distance : Q → Q → Q → Q → Q) (G : graph)
    (weight : string) (goal_data : node_data) (n : Z) : Q :=
  match nodes G !! n with
  | Some nd =>
      h_score weight
        (haversine_distance (node_y nd) (node_x nd)
           (node_y goal_data) (node_x goal_data))
  | None => 0
  end.

(** The number of segments a road-type histogram accounts for. *)
Definition hist_total (road_types : list (attr * Z)) : Z :=
  foldr (λ p acc, p.2 + acc) 0 road_types.

(** An attribute that [calculate_route_stats] adds up is absent or a
    number, and the road type is absent or hashable. *)
Definition stats_typed (d : edge_data) : Prop :=
  (∀ key, key ∈ ["length"; "time"; "pollution"] →
     ∀ a, d !! key = Some a → ∃ q, a = ANum q) ∧
  ∀ l, d !! "road_type" ≠ Some (AList l).

(** Two nodes joined by a key-1 edge only. *)
Definition key1_graph : graph :=
  {| nodes := list_to_map [(1, at_coords 0 0); (2, at_coords 0 1)];
     adj := list_to_map [(1, [(2, {[1 := timed_edge 3 3]})]); (2, [])] |}.

(** An edge the weighting scheme can process: its length is a number (or
    absent) and its [highway] tag is not an empty list. *)
Definition weighable (e : Z * Z * Z * edge_data) : Prop :=
  (∃ len, get e.2 "length" (ANum 100) = ANum len) ∧
  get e.2 "highway" (AStr "default") ≠ AList [].

(** The attributes the weighting scheme writes. *)
Definition scheme_keys : list string :=
  ["pollution"; "pollution_multiplier"; "road_type"; "time"].
(** ** The frontier *)

Lemma entry_leb_spec (a b : entry) :
  entry_leb a b = true ↔
  (a.1.1 < b.1.1 ∨
   (a.1.1 == b.1.1 ∧ (a.1.2 < b.1.2 ∨ (a.1.2 == b.1.2 ∧ a.2 ≤ b.2))))%Q.
Proof.
  unfold entry_leb, entry_cmp.
  destruct (Qcompare_spec a.1.1 b.1.1) as [Hf|Hf|Hf].
  - destruct (Qcompare_spec a.1.2 b.1.2) as [Hg|Hg|Hg].
    + destruct (Z.compare_spec a.2 b.2) as [Hn|Hn|Hn]; split; intros H;
        try done; try (right; split; [done|right; split; [done|lia]]).
      destruct H as [H|[_ [H|[_ H]]]]; [lra|lra|lia].
    + split; [intros _; right; split; [done|by left]|done].
    + split; [done|]. intros [H|[_ [H|[H _]]]]; lra.
  - split; [by left|done].
  - split; [done|]. intros [H|[H _]]; lra.
Qed.

Lemma entry_le_refl (a : entry) : entry_le a a.
Proof. apply entry_leb_spec. right. split; [lra|]. right. split; [lra|lia]. Qed.

Lemma entry_le_trans (a b c : entry) : entry_le a b → entry_le b c → entry_le a c.
Proof.
  unfold entry_le. rewrite !entry_leb_spec.
  intros [?|[? [?|[? ?]]]] [?|[? [?|[? ?]]]];
    first [ left; lra
          | right; split; [lra|left; lra]
          | right; split; [lra|right; split; [lra|lia]] ].
Qed.

Lemma entry_le_total (a b : entry) : entry_leb a b = false → entry_le b a.
Proof.
  intros H. apply entry_leb_spec.
  destruct (Qlt_le_dec b.1.1 a.1.1) as [?|Hf]; [by left|].
  destruct (Qlt_le_dec a.1.1 b.1.1) as [Hlt|Hf'].
  { assert (entry_leb a b = true) as E by (apply entry_leb_spec; by left).
    congruence. }
  right. split; [lra|].
  destruct (Qlt_le_dec b.1.2 a.1.2) as [?|Hg]; [by left|].
  destruct (Qlt_le_dec a.1.2 b.1.2) as [Hlt|Hg'].
  { assert (entry_leb a b = true) as E
      by (apply entry_leb_spec; right; split; [lra|by left]).
    congruence. }
  right. split; [lra|].
  destruct (Z_le_gt_dec b.2 a.2) as [?|Hn]; [done|].
  assert (entry_leb a b = true) as E
    by (apply entry_leb_spec; right; split; [lra|right; split; [lra|lia]]).
  congruence.
Qed.

Lemma extract_min_perm (h : list entry) (e m : entry) (r : list entry) :
  extract_min e h = (m, r) → e :: h ≡ₚ m :: r.
Proof.
  revert e m r. induction h as [|e' t IH]; intros e m r; simpl.
  - by intros [= <- <-].
  - destruct (extract_min e' t) as [m' r'] eqn:E.
    specialize (IH _ _ _ E).
    destruct (entry_leb e m'); intros [= <- <-]; [done|].
    rewrite IH. apply perm_swap.
Qed.

Lemma extract_min_least (h : list entry) (e m : entry) (r : list entry) :
  extract_min e h = (m, r) → Forall (entry_le m) (e :: h).
Proof.
  revert e m r. induction h as [|e' t IH]; intros e m r; simpl.
  - intros [= <- <-]. constructor; [apply entry_le_refl|constructor].
  - destruct (extract_min e' t) as [m' r'] eqn:E.
    specialize (IH _ _ _ E).
    destruct (entry_leb e m') eqn:L; intros [= <- <-].
    + constructor; [apply entry_le_refl|].
      eapply Forall_impl; [exact IH|]. intros x Hx.
      by eapply entry_le_trans.
    + constructor; [by apply entry_le_total|done].
Qed.

Lemma heappop_perm (h : list entry) (m : entry) (r : list entry) :
  heappop h = Some (m, r) → h ≡ₚ m :: r.
Proof. destruct h; [done|]. intros [= E]. by apply extract_min_perm. Qed.

Lemma heappop_least (h : list entry) (m : entry) (r : list entry) :
  heappop h = Some (m, r) → Forall (entry_le m) h.
Proof. destruct h; [done|]. intros [= E]. by eapply extract_min_least. Qed.

(** ** Branches of the predecessor tree *)

Lemma qadd_canon (a b : Q) : canon (qadd a b).
Proof. apply Qred_complete, Qred_correct. Qed.

Lemma canon_eq (a b : Q) : canon a → canon b → (a == b)%Q → a = b.
Proof. intros Ha Hb H. rewrite <- Ha, <- Hb. by apply Qred_complete. Qed.

Lemma qadd_correct (a b : Q) : (qadd a b == a + b)%Q.
Proof. apply Qred_correct. Qed.

Lemma consecutive_snoc (l : list Z) (p n : Z) :
  last l = Some p → consecutive (l ++ [n]) = consecutive l ++ [(p, n)].
Proof.
  unfold consecutive. induction l as [|a [|b t] IH]; [done| |].
  - by intros [= ->].
  - intros H. specialize (IH H). simpl in *. by rewrite IH.
Qed.

Lemma consecutive_lookup (l : list Z) (i : nat) (u v : Z) :
  l !! i = Some u → l !! S i = Some v → (u, v) ∈ consecutive l.
Proof.
  intros Hu Hv. unfold consecutive. apply list_elem_of_lookup. exists i.
  apply lookup_zip_Some. by rewrite lookup_tail.
Qed.

Section tree.

Variable G : graph.
Variables start_node : Z.
Variable weight : string.

Local Abbreviation tree_path := (tree_path G start_node weight).

Lemma tree_path_mono cf C C' n l g :
  C ⊆ C' → tree_path cf C n l g → tree_path cf C' n l g.
Proof.
  intros HC. induction 1 as [|n p l gp d c Hn Hp _ IH Hd Hc].
  - constructor. set_solver.
  - econstructor; eauto.
Qed.

Lemma tree_path_insert cf C m q n l g :
  m ∉ C → tree_path cf C n l g → tree_path (<[m := q]> cf) C n l g.
Proof.
  intros Hm. induction 1 as [|n p l gp d c Hn Hp _ IH Hd Hc].
  - by constructor.
  - econstructor; eauto. rewrite lookup_insert_ne; [done|]. set_solver.
Qed.

Lemma tree_path_head cf C n l g :
  tree_path cf C n l g → l = start_node :: tail l.
Proof.
  induction 1 as [|n p l gp d c Hn Hp _ IH Hd Hc]; [done|].
  rewrite IH. done.
Qed.

Lemma tree_path_last cf C n l g : tree_path cf C n l g → last l = Some n.
Proof. destruct 1; [done|]. by rewrite last_snoc. Qed.

Lemma tree_path_edges cf C n l g :
  tree_path cf C n l g →
  Forall (λ e, ∃ d c, G_edge G e.1 e.2 0 = Ok d ∧
                      as_num (edge_cost weight d) = Ok c) (consecutive l).
Proof.
  induction 1 as [|n p l gp d c Hn Hp Hl IH Hd Hc]; [constructor|].
  rewrite (consecutive_snoc l p n) by (by eapply tree_path_last).
  apply Forall_app. split; [done|]. constructor; [|constructor]. eauto.
Qed.

Lemma path_sum_snoc key l p n acc g d c :
  last l = Some p → path_sum G key l acc = Ok g →
  G_edge G p n 0 = Ok d → as_num (get d key (ANum 0)) = Ok c →
  path_sum G key (l ++ [n]) acc = Ok (qadd g c).
Proof.
  intros Hl Hs Hd Hc. revert acc Hl Hs.
  induction l as [|a [|b t] IH]; intros acc Hl Hs; [done| |].
  - injection Hl as ->. simpl in *. injection Hs as ->.
    rewrite Hd. simpl. by rewrite Hc.
  - change (path_sum G key (a :: (b :: t) ++ [n]) acc = Ok (qadd g c)).
    change (path_sum G key (a :: b :: t) acc = Ok g) in Hs.
    simpl in Hs. simpl.
    destruct (G_edge G a b 0) as [d'| |]; simpl in *; try done.
    destruct (as_num (get d' key (ANum 0))) as [c'| |]; simpl in *; try done.
    apply IH; [done|]. exact Hs.
Qed.

(** On a branch whose edges all carry the attribute, the attribute's sum
    is the branch's cost. *)
Lemma tree_path_sum cf C n l g :
  tree_path cf C n l g →
  Forall (λ e, ∀ d, G_edge G e.1 e.2 0 = Ok d → is_Some (d !! weight))
    (consecutive l) →
  path_sum G weight l 0 = Ok g.
Proof.
  induction 1 as [|n p l gp d c Hn Hp Hl IH Hd Hc]; [done|].
  rewrite (consecutive_snoc l p n) by (by eapply tree_path_last).
  intros [Hall Hpn]%Forall_app. apply Forall_cons_1 in Hpn as [Hpn _].
  eapply path_sum_snoc; eauto using tree_path_last.
  destruct (Hpn d Hd) as [a Ha]. simpl in Ha.
  unfold edge_cost, get in Hc. rewrite Ha in Hc. simpl in Hc.
  unfold get. by rewrite Ha.
Qed.

Lemma walk_back_tree cf C n l g fuel acc :
  tree_path cf C n l g → cf !! start_node = None →
  (length l ≤ S fuel)%nat →
  walk_back fuel cf n acc = Ok (acc ++ rev (tail l), start_node).
Proof.
  intros H Hs. revert fuel acc.
  induction H as [|n p l gp d c Hn Hp Hl IH Hd Hc]; intros fuel acc Hlen.
  - destruct fuel; simpl; rewrite Hs; by rewrite app_nil_r.
  - pose proof (tree_path_head _ _ _ _ _ Hl) as Hh.
    rewrite length_app in Hlen. simpl in Hlen.
    destruct fuel as [|fuel].
    { rewrite Hh in Hlen. simpl in Hlen. lia. }
    simpl. rewrite Hp. rewrite IH by lia.
    f_equal. f_equal. rewrite Hh. simpl.
    rewrite rev_app_distr. simpl. by rewrite <- app_assoc.
Qed.

Lemma reconstruct_tree end_node cf C l g explored :
  tree_path cf C end_node l g → cf !! start_node = None →
  (length l ≤ length explored)%nat →
  reconstruct start_node end_node cf explored = Ok l.
Proof.
  intros H Hs Hlen. unfold reconstruct.
  pose proof (tree_path_head _ _ _ _ _ H) as Hh.
  erewrite walk_back_tree; [|done|done|lia]. simpl.
  rewrite rev_app_distr. simpl. rewrite rev_involutive. by rewrite <- Hh.
Qed.

End tree.

(** ** The search invariant *)

Lemma bind_Ok {A B} (m : res A) (k : A → res B) (b : B) :
  m ≫= k = Ok b ↔ ∃ a, m = Ok a ∧ k a = Ok b.
Proof.
  unfold mbind, res_mbind, res_bind. destruct m; split.
  - eauto.
  - by intros (? & [= ->] & ?).
  - done.
  - by intros (? & ? & ?).
  - done.
  - by intros (? & ? & ?).
Qed.

Lemma elem_of_close_l (x : Z) (C : gset Z) : x ∈ ({[x]} ∪ C : gset Z).
Proof. apply elem_of_union. left. by apply elem_of_singleton. Qed.

Lemma elem_of_close_r (x y : Z) (C : gset Z) : x ∈ C → x ∈ ({[y]} ∪ C : gset Z).
Proof. intros H. apply elem_of_union. by right. Qed.

Lemma elem_of_close_inv (x y : Z) (C : gset Z) :
  x ∈ ({[y]} ∪ C : gset Z) → x = y ∨ x ∈ C.
Proof. intros [H%elem_of_singleton|H]%elem_of_union; auto. Qed.

Lemma not_elem_of_close (x y : Z) (C : gset Z) :
  x ∉ ({[y]} ∪ C : gset Z) → x ≠ y ∧ x ∉ C.
Proof.
  intros H. split.
  - intros ->. apply H, elem_of_close_l.
  - intros Hx. by apply H, elem_of_close_r.
Qed.

Lemma close_subseteq (y : Z) (C : gset Z) : C ⊆ ({[y]} ∪ C : gset Z).
Proof. intros x. apply elem_of_close_r. Qed.

Ltac inv_bind H :=
  let a := fresh "a" in
  let Ha := fresh "E" in
  apply bind_Ok in H as (a & Ha & H).

Section preservation.

Variable haversine_distance : Q → Q → Q → Q → Q.
Variable G : graph.
Variables start_node end_node : Z.
Variable weight : string.
Variable end_coords : Q * Q.

Local Abbreviation tree_path := (tree_path G start_node weight).
Local Abbreviation running :=
  (running haversine_distance G start_node weight end_coords).
Local Abbreviation relaxG := (relax haversine_distance G weight end_coords).
Local Abbreviation relax_allG :=
  (relax_all haversine_distance G weight end_coords).
Local Abbreviation stepG :=
  (astar_step haversine_distance G start_node end_node weight end_coords).
Local Abbreviation loopG :=
  (astar_loop haversine_distance G start_node end_node weight).

Lemma relax_running st current current_g neighbor st' :
  running st → current ∈ closed_set st →
  g_scores st !! current = Some current_g →
  relaxG current current_g st neighbor = Ok st' → running st'.
Proof.
  intros [Hstart Hcf Hclosed Hheap Hbest Hexpl] Hcur Hg. unfold relax.
  case_decide as Hm; [by intros [= <-]|].
  intros H. inv_bind H. rename a into d. inv_bind H. rename a into c.
  set (tg := qadd current_g c) in *.
  assert (neighbor ≠ current) as Hne by (intros ->; done).
  destruct (match g_scores st !! neighbor with
            | Some g => qltb tg g | None => true end) eqn:Hbetter;
    [|by injection H as <-].
  inv_bind H. rename a into hn. injection H as <-.
  split; simpl.
  - done.
  - intros n p. destruct (decide (n = neighbor)) as [->|Hn].
    + rewrite lookup_insert_eq. intros [= <-].
      split; [done|]. split; [by intros ->|].
      exists d, c, current_g. rewrite lookup_insert_ne by done.
      by rewrite lookup_insert_eq.
    + rewrite lookup_insert_ne by done. intros Hp.
      destruct (Hcf n p Hp) as (HpC & Hns & d' & c' & gp & ? & ? & ? & ?).
      split; [done|]. split; [done|]. exists d', c', gp.
      rewrite !lookup_insert_ne; [done|done|by intros ->].
  - intros n Hn. destruct (Hclosed n Hn) as (l & g & Hl & Hgs & Hlen).
    exists l, g. split; [by apply tree_path_insert|].
    rewrite lookup_insert_ne; [done|by intros ->].
  - intros f g n [[= -> -> ->]|Hin]%elem_of_cons Hn.
    + rewrite !lookup_insert_eq. split; [done|]. split; [apply qadd_canon|].
      exists tg, hn. split; [done|]. split; [apply Qle_refl|done].
    + destruct (Hheap f g n Hin Hn) as (Hsome & Hcan & g0 & h0 & ? & ? & ? & ?).
      destruct (decide (n = neighbor)) as [->|Hnn].
      * rewrite !lookup_insert_eq. split; [done|]. split; [done|].
        exists tg, h0. split; [done|]. split; [|done].
        replace (g_scores st !! neighbor) with (Some g0) in Hbetter.
        unfold qltb in Hbetter.
        destruct (Qcompare_spec tg g0); try done. lra.
      * rewrite !lookup_insert_ne by done. split; [done|]. split; [done|].
        by exists g0, h0.
  - intros n g0 Hn. destruct (decide (n = neighbor)) as [->|Hnn].
    + rewrite lookup_insert_eq. intros [= <-]. exists hn.
      split; [done|]. apply elem_of_cons. by left.
    + rewrite lookup_insert_ne by done. intros Hg0.
      destruct (Hbest n g0 Hn Hg0) as (h0 & ? & ?). exists h0.
      split; [done|]. apply elem_of_cons. by right.
  - done.
Qed.

Lemma relax_frame st current current_g neighbor st' :
  relaxG current current_g st neighbor = Ok st' →
  closed_set st' = closed_set st ∧ explored_nodes st' = explored_nodes st ∧
  (∀ n, n ∈ closed_set st → g_scores st' !! n = g_scores st !! n).
Proof.
  unfold relax. case_decide as Hm; [by intros [= <-]|].
  intros H. inv_bind H. inv_bind H.
  destruct (match g_scores st !! neighbor with
            | Some g => qltb _ g | None => true end); [|by injection H as <-].
  inv_bind H. injection H as <-. simpl. split; [done|]. split; [done|].
  intros n Hn. rewrite lookup_insert_ne; [done|by intros ->].
Qed.

Lemma relax_all_running nbrs st current current_g st' :
  running st → current ∈ closed_set st →
  g_scores st !! current = Some current_g →
  relax_allG current current_g st nbrs = Ok st' → running st'.
Proof.
  revert st. induction nbrs as [|m rest IH]; intros st Hrun Hcur Hg; simpl.
  - by intros [= <-].
  - intros H. inv_bind H. rename a into st1.
    destruct (relax_frame _ _ _ _ _ E) as (HC & _ & Hgs).
    apply (IH st1); [by eapply relax_running| |by rewrite Hgs|done].
    by rewrite HC.
Qed.

(** The entry popped for an open node carries the node's recorded cost. *)
Lemma pop_running st f g current rest :
  running st → heappop (open_set st) = Some ((f, g, current), rest) →
  current ∉ closed_set st →
  g_scores st !! current = Some g ∧ is_Some (came_from st !! current).
Proof.
  intros [Hstart Hcf Hclosed Hheap Hbest Hexpl] Hpop Hcur.
  pose proof (heappop_perm _ _ _ Hpop) as Hperm.
  pose proof (heappop_least _ _ _ Hpop) as Hleast.
  assert ((f, g, current) ∈ open_set st) as Hin
    by (rewrite Hperm; apply elem_of_cons; by left).
  destruct (Hheap _ _ _ Hin Hcur) as (Hsome & Hcan & g0 & hn & Hg0 & Hle & Hh & ->).
  split; [|done].
  destruct (Hbest _ _ Hcur Hg0) as (hn' & Hh' & Hin0).
  rewrite Hh in Hh'. injection Hh' as <-.
  destruct (Hheap _ _ _ Hin0 Hcur) as (_ & Hcan0 & _).
  rewrite Forall_forall in Hleast. specialize (Hleast _ Hin0).
  apply entry_leb_spec in Hleast. simpl in Hleast.
  pose proof (qadd_correct g hn). pose proof (qadd_correct g0 hn).
  rewrite Hg0. f_equal. apply canon_eq; [done|done|].
  destruct Hleast as [?|[? [?|[? ?]]]]; lra.
Qed.

Lemma close_running st f g current rest :
  running st → heappop (open_set st) = Some ((f, g, current), rest) →
  current ∉ closed_set st →
  running (closed_state st rest current).
Proof.
  intros Hrun Hpop Hcur.
  destruct (pop_running _ _ _ _ _ Hrun Hpop Hcur) as [Hg [p Hp]].
  destruct Hrun as [Hstart Hcf Hclosed Hheap Hbest Hexpl].
  pose proof (heappop_perm _ _ _ Hpop) as Hperm.
  split; simpl.
  - by apply elem_of_close_r.
  - intros n q Hq.
    destruct (Hcf n q Hq) as (HqC & Hns & Hrest).
    split; [by apply elem_of_close_r|done].
  - intros n Hn. rewrite length_app. simpl.
    destruct (decide (n = current)) as [->|Hne].
    + destruct (Hcf _ _ Hp) as (HpC & Hns & d & c & gp & Hd & Hc & Hgp & Hgc).
      destruct (Hclosed p HpC) as (l & g' & Hl & Hg' & Hlen).
      rewrite Hgp in Hg'. injection Hg' as <-.
      exists (l ++ [current]), (qadd gp c).
      split; [|split; [done|rewrite length_app; simpl; lia]].
      apply (tp_step _ _ _ _ _ current p l gp d c);
        [apply elem_of_close_l|done| |done|done].
      eapply tree_path_mono; [apply close_subseteq|done].
    + destruct (Hclosed n) as (l & g' & Hl & Hg' & Hlen).
      { by destruct (elem_of_close_inv _ _ _ Hn). }
      exists l, g'. split; [|split; [done|lia]].
      eapply tree_path_mono; [apply close_subseteq|done].
  - intros f' g' n Hin Hn. apply not_elem_of_close in Hn as [Hne Hn].
    apply (Hheap f' g' n); [|done].
    rewrite Hperm. apply elem_of_cons. by right.
  - intros n g0 Hn Hg0. apply not_elem_of_close in Hn as [Hne Hn].
    destruct (Hbest n g0 Hn Hg0) as (hn & Hh & Hin).
    exists hn. split; [done|].
    rewrite Hperm in Hin. by apply elem_of_cons in Hin as [[= _ _ ->]|Hin].
  - destruct Hexpl as [Hnd Hiff]. split.
    + apply NoDup_app. split; [done|]. split; [|apply NoDup_singleton].
      intros n Hn ->%list_elem_of_singleton. by apply Hcur, Hiff.
    + intros n. rewrite elem_of_app, list_elem_of_singleton, Hiff.
      rewrite elem_of_union, elem_of_singleton. tauto.
Qed.

Lemma close_initial :
  running (closed_state (initial_state start_node) [] start_node).
Proof.
  split; simpl.
  - apply elem_of_close_l.
  - intros n p. by rewrite lookup_empty.
  - intros n Hn. assert (n = start_node) as ->.
    { destruct (elem_of_close_inv _ _ _ Hn) as [?|H]; [done|].
      by apply not_elem_of_empty in H. }
    exists [start_node], 0%Q. split; [constructor; apply elem_of_close_l|].
    split; [by rewrite lookup_singleton_eq|done].
  - intros f g n Hin. by apply elem_of_nil in Hin.
  - intros n g0 Hn. apply not_elem_of_close in Hn as [Hne _].
    by rewrite lookup_singleton_ne.
  - split; [apply NoDup_singleton|].
    intros n. rewrite list_elem_of_singleton, elem_of_union, elem_of_singleton.
    split; [by left|]. intros [?|H]; [done|]. by apply not_elem_of_empty in H.
Qed.

Lemma skip_running st f g current rest :
  running st → heappop (open_set st) = Some ((f, g, current), rest) →
  current ∈ closed_set st →
  running {| open_set := rest; came_from := came_from st;
             g_scores := g_scores st; explored_nodes := explored_nodes st;
             explored_edges := explored_edges st;
             closed_set := closed_set st |}.
Proof.
  intros [Hstart Hcf Hclosed Hheap Hbest Hexpl] Hpop Hcur.
  pose proof (heappop_perm _ _ _ Hpop) as Hperm.
  split; simpl; try done.
  - intros f' g' n Hin Hn. apply (Hheap f' g' n); [|done].
    rewrite Hperm. apply elem_of_cons. by right.
  - intros n g0 Hn Hg0. destruct (Hbest n g0 Hn Hg0) as (hn & Hh & Hin).
    exists hn. split; [done|].
    rewrite Hperm in Hin. by apply elem_of_cons in Hin as [[= _ _ ->]|Hin].
Qed.

(** A popped open node, in either phase: its state after closing. *)
Lemma close_inv st f g current rest :
  search_inv haversine_distance G start_node weight end_coords st →
  heappop (open_set st) = Some ((f, g, current), rest) →
  current ∉ closed_set st →
  running (closed_state st rest current) ∧ g_scores st !! current = Some g.
Proof.
  intros [->|Hrun] Hpop Hcur.
  - simpl in Hpop. injection Hpop as <- <- <- <-.
    split; [apply close_initial|simpl; by rewrite lookup_singleton_eq].
  - split; [by eapply close_running|].
    by eapply pop_running.
Qed.

Lemma step_inv st st' :
  search_inv haversine_distance G start_node weight end_coords st →
  stepG st = Ok (inr st') →
  running st'.
Proof.
  intros Hinv. unfold astar_step.
  destruct (heappop (open_set st)) as [[[[f g] current] rest]|] eqn:Hpop;
    [|done].
  case_decide as Hcur.
  - intros [= <-]. destruct Hinv as [->|Hrun];
      [by apply not_elem_of_empty in Hcur|].
    by eapply skip_running.
  - destruct (close_inv _ _ _ _ _ Hinv Hpop Hcur) as [Hrun Hg].
    case_decide as Hend.
    { intros H. inv_bind H. done. }
    intros H. inv_bind H. inv_bind H. injection H as <-.
    eapply relax_all_running; [exact Hrun| | |done]; simpl;
      [apply elem_of_close_l|done].
Qed.

Lemma step_result st r :
  search_inv haversine_distance G start_node weight end_coords st →
  stepG st = Ok (inl r) →
  good_result G start_node end_node weight r.
Proof.
  intros Hinv. unfold astar_step.
  destruct (heappop (open_set st)) as [[[[f g] current] rest]|] eqn:Hpop.
  - case_decide as Hcur; [done|].
    destruct (close_inv _ _ _ _ _ Hinv Hpop Hcur) as [Hrun Hg].
    case_decide as Hend.
    + intros H. inv_bind H. rename a into path. injection H as <-. simpl.
      destruct Hrun as [Hstart Hcf Hclosed Hheap Hbest Hexpl]. simpl in *.
      destruct (Hclosed current) as (l & g' & Hl & Hg' & Hlen);
        [apply elem_of_close_l|].
      rewrite Hg in Hg'. injection Hg' as <-. subst current.
      erewrite reconstruct_tree in E; [|done| |done].
      * injection E as <-. split; [eauto|]. apply Hexpl.
      * destruct (came_from st !! start_node) as [p|] eqn:Hp; [|done].
        by destruct (Hcf _ _ Hp) as (_ & ? & _).
    + intros H. inv_bind H. inv_bind H. done.
  - intros [= <-]. simpl.
    destruct Hinv as [->|Hrun]; [apply NoDup_nil_2|]. apply Hrun.
Qed.

Lemma astar_loop_good fuel st r :
  search_inv haversine_distance G start_node weight end_coords st →
  loopG fuel end_coords st = Ok r →
  good_result G start_node end_node weight r.
Proof.
  revert st. induction fuel as [|fuel IH]; intros st Hinv; [done|].
  simpl. intros H. inv_bind H. destruct a as [r'|st'].
  - injection H as <-. by eapply step_result.
  - apply (IH st'); [|done]. right. by eapply step_inv.
Qed.

End preservation.

(** Whatever the search returns is a branch of its predecessor tree, or no
    path at infinite cost. *)
Lemma astar_good haversine_distance G start_node end_node weight r :
  astar_pathfinding haversine_distance G start_node end_node weight = Ok r →
  good_result G start_node end_node weight r.
Proof.
  unfold astar_pathfinding. intros H. inv_bind H.
  eapply astar_loop_good; [|done]. by left.
Qed.

(** * Further properties of the search *)

(** ** What one relaxation and one turn of the loop do *)

Section cases.

Variable haversine_distance : Q → Q → Q → Q → Q.
Variable G : graph.
Variables start_node end_node : Z.
Variable weight : string.
Variable end_coords : Q * Q.

Local Abbreviation relaxG := (relax haversine_distance G weight end_coords).
Local Abbreviation relax_allG :=
  (relax_all haversine_distance G weight end_coords).
Local Abbreviation stepG :=
  (astar_step haversine_distance G start_node end_node weight end_coords).
Local Abbreviation loopG :=
  (astar_loop haversine_distance G start_node end_node weight).
Local Abbreviation search_inv :=
  (search_inv haversine_distance G start_node weight end_coords).

(** A relaxation that returns either leaves the state alone (the
    neighbour is closed, or its recorded cost is no worse) or records the
    new cost, link and edge and pushes one entry. *)
Lemma relax_cases current current_g st neighbor st' :
  relaxG current current_g st neighbor = Ok st' →
  (st' = st ∧
   (neighbor ∈ closed_set st ∨
    ∃ d c g, G_edge G current neighbor 0 = Ok d ∧
      as_num (edge_cost weight d) = Ok c ∧
      g_scores st !! neighbor = Some g ∧ (g <= qadd current_g c)%Q)) ∨
  ((neighbor ∉ closed_set st) ∧
   ∃ d c hn, G_edge G current neighbor 0 = Ok d ∧
     as_num (edge_cost weight d) = Ok c ∧
     heuristic haversine_distance G weight end_coords neighbor = Ok hn ∧
     (∀ g, g_scores st !! neighbor = Some g → (qadd current_g c < g)%Q) ∧
     st' = {| open_set := (qadd (qadd current_g c) hn, qadd current_g c,
                           neighbor) :: open_set st;
              came_from := <[neighbor := current]> (came_from st);
              g_scores := <[neighbor := qadd current_g c]> (g_scores st);
              explored_nodes := explored_nodes st;
              explored_edges := explored_edges st ++ [(current, neighbor)];
              closed_set := closed_set st |}).
Proof.
  unfold relax. case_decide as Hm; [intros [= <-]; left; auto|].
  intros H. inv_bind H. rename a into d. inv_bind H. rename a into c.
  destruct (g_scores st !! neighbor) as [g|] eqn:Hg.
  - unfold qltb in H.
    destruct (Qcompare_spec (qadd current_g c) g) as [Hc|Hc|Hc].
    + injection H as <-. left. split; [done|]. right.
      exists d, c, g. repeat split; try done. lra.
    + inv_bind H. rename a into hn. injection H as <-. right.
      split; [done|]. exists d, c, hn. repeat split; try done.
      by intros g' [= <-].
    + injection H as <-. left. split; [done|]. right.
      exists d, c, g. repeat split; try done. lra.
  - inv_bind H. rename a into hn. injection H as <-. right.
    split; [done|]. exists d, c, hn. repeat split; done.
Qed.

(** A turn that goes on either drops a stale entry or expands the popped
    node. *)
Lemma step_cases st st' :
  stepG st = Ok (inr st') →
  ∃ f g current rest,
    heappop (open_set st) = Some ((f, g, current), rest) ∧
    ((current ∈ closed_set st ∧
      st' = {| open_set := rest; came_from := came_from st;
               g_scores := g_scores st;
               explored_nodes := explored_nodes st;
               explored_edges := explored_edges st;
               closed_set := closed_set st |}) ∨
     ((current ∉ closed_set st) ∧ current ≠ end_node ∧
      ∃ nbrs, adj G !! current = Some nbrs ∧
        relax_allG current g (closed_state st rest current) nbrs.*1
          = Ok st')).
Proof.
  unfold astar_step.
  destruct (heappop (open_set st)) as [[[[f g] current] rest]|]; [|done].
  intros H. exists f, g, current, rest. split; [done|].
  case_decide as Hcur; [injection H as <-; by left|].
  case_decide as Hend; [by inv_bind H|]. right.
  split; [done|]. split; [done|].
  unfold G_neighbors in H. destruct (adj G !! current) as [nbrs|]; [|done].
  simpl in H. inv_bind H. injection H as <-. by exists nbrs.
Qed.

(** A turn that returns found the frontier empty, or popped the goal. *)
Lemma result_cases st r :
  stepG st = Ok (inl r) →
  (heappop (open_set st) = None ∧
   r = (None, Infinity, explored_nodes st, explored_edges st)) ∨
  ∃ f g rest path,
    heappop (open_set st) = Some ((f, g, end_node), rest) ∧
    (end_node ∉ closed_set st) ∧
    reconstruct start_node end_node (came_from st)
      (explored_nodes st ++ [end_node]) = Ok path ∧
    r = (Some path, Finite g, explored_nodes st ++ [end_node],
         explored_edges st).
Proof.
  unfold astar_step.
  destruct (heappop (open_set st)) as [[[[f g] current] rest]|];
    [|intros [= <-]; by left].
  case_decide as Hcur; [done|]. case_decide as Hend.
  - subst current. intros H. inv_bind H. injection H as <-. right.
    by exists f, g, rest, a.
  - intros H. inv_bind H. by inv_bind H.
Qed.

(** Induction over the loop for an invariant of the states after the
    first expansion. *)
Lemma astar_loop_invariant (I : search_state → Prop)
    (P : search_result → Prop) :
  (∀ st st', search_inv st → (st = initial_state start_node ∨ I st) →
     stepG st = Ok (inr st') → I st') →
  (∀ st r, search_inv st → (st = initial_state start_node ∨ I st) →
     stepG st = Ok (inl r) → P r) →
  ∀ fuel st r, search_inv st → (st = initial_state start_node ∨ I st) →
    loopG fuel end_coords st = Ok r → P r.
Proof.
  intros Hstep Hres. induction fuel as [|fuel IH]; intros st r Hinv HI; [done|].
  simpl. intros H. inv_bind H. destruct a as [r'|st'].
  - injection H as <-. by eapply Hres.
  - apply (IH st'); [right; by eapply step_inv|right; by eapply Hstep|done].
Qed.

End cases.

Lemma astar_invariant haversine_distance G start_node end_node weight
    (I : Q * Q → search_state → Prop) (P : search_result → Prop) r :
  (∀ end_coords st st',
     search_inv haversine_distance G start_node weight end_coords st →
     (st = initial_state start_node ∨ I end_coords st) →
     astar_step haversine_distance G start_node end_node weight end_coords st
       = Ok (inr st') → I end_coords st') →
  (∀ end_coords st r,
     search_inv haversine_distance G start_node weight end_coords st →
     (st = initial_state start_node ∨ I end_coords st) →
     astar_step haversine_distance G start_node end_node weight end_coords st
       = Ok (inl r) → P r) →
  astar_pathfinding haversine_distance G start_node end_node weight = Ok r →
  P r.
Proof.
  intros Hstep Hres. unfold astar_pathfinding, G_node.
  destruct (nodes G !! end_node) as [d|] eqn:Hd; [|done].
  cbn [of_option mbind res_mbind res_bind].
  apply astar_loop_invariant with (I := I (node_y d, node_x d));
    [apply Hstep|apply Hres|by left|by left].
Qed.

(** ** The returned path and its cost *)

Lemma consecutive_elem (l : list Z) (u v : Z) :
  (u, v) ∈ consecutive l → ∃ i, l !! i = Some u ∧ l !! S i = Some v.
Proof.
  unfold consecutive. intros [i Hi]%list_elem_of_lookup. exists i.
  apply lookup_zip_Some in Hi. by rewrite lookup_tail in Hi.
Qed.

Lemma stats_loop_sums G path acc t :
  stats_loop G path acc = Ok t →
  path_sum G "length" path (total_distance acc) = Ok (total_distance t) ∧
  path_sum G "time" path (total_time acc) = Ok (total_time t) ∧
  path_sum G "pollution" path (total_pollution acc) = Ok (total_pollution t).
Proof.
  revert acc. induction path as [|u [|v rest] IH]; intros acc.
  - by intros [= <-].
  - by intros [= <-].
  - change (stats_loop G (u :: v :: rest) acc) with
      (edge_data ← G_edge G u v 0;
       distance ← as_num (get edge_data "length" (ANum 0));
       time ← as_num (get edge_data "time" (ANum 0));
       pollution ← as_num (get edge_data "pollution" (ANum 0));
       road_type ← hashable (get edge_data "road_type" (AStr "unknown"));
       stats_loop G (v :: rest)
         {| total_distance := qadd (total_distance acc) distance;
            total_time := qadd (total_time acc) time;
            total_pollution := qadd (total_pollution acc) pollution;
            road_types_acc := count_up road_type (road_types_acc acc) |}).
    intros H. inv_bind H. inv_bind H. inv_bind H. inv_bind H. inv_bind H.
    apply IH in H as (Hd & Ht & Hp). simpl in Hd, Ht, Hp.
    repeat split;
      match goal with
      | |- path_sum _ ?k _ _ = _ =>
          change (path_sum G k (u :: v :: rest) ?a) with
            (edge_data ← G_edge G u v 0;
             c ← as_num (get edge_data k (ANum 0));
             path_sum G k (v :: rest) (qadd a c))
      end; rewrite E; simpl.
    + by rewrite E0.
    + by rewrite E1.
    + by rewrite E2.
Qed.

(** C3.  The cost a successful search returns is the sum of the chosen
    criterion's attribute over the key-0 edges of the consecutive nodes of
    the returned path, whenever each of these edges carries the attribute:
    computed by [path_sum], and as [calculate_route_stats] reports it
    (seconds as minutes, metres as kilometres). *)
Theorem cost_consistency haversine_distance G start_node end_node weight
    path c explored edges :
  astar_pathfinding haversine_distance G start_node end_node weight
    = Ok (Some path, Finite c, explored, edges) →
  (∀ i u v d, path !! i = Some u → path !! S i = Some v →
     G_edge G u v 0 = Ok d → is_Some (d !! weight)) →
  path_sum G weight path 0 = Ok c ∧
  ∀ route_name stats,
    calculate_route_stats G path route_name = Ok stats →
    (weight = "time" → time_minutes stats = qdiv c 60) ∧
    (weight = "pollution" → pollution_score stats = c) ∧
    (weight = "length" → distance_km stats = qdiv c 1000).
Proof.
  intros Hrun Hattr. apply astar_good in Hrun as [(cf & C & Htree) _].
  assert (path_sum G weight path 0 = Ok c) as Hsum.
  { eapply tree_path_sum; [done|]. apply Forall_forall.
    intros [u v] (i & Hu & Hv)%consecutive_elem d Hd. simpl in Hd.
    by apply (Hattr i u v d). }
  split; [done|]. intros route_name stats H. unfold calculate_route_stats in H.
  inv_bind H. rename a into t. injection H as <-. simpl.
  apply stats_loop_sums in E as (Hd & Ht & Hp). simpl in *.
  repeat split; intros ->; congruence.
Qed.

Lemma cost_consistency_witness :
  astar_pathfinding taxicab line_graph 1 4 "time"
    = Ok (Some [1; 2; 3; 4], Finite 35, [1; 2; 3; 4], [(1, 2); (2, 3); (3, 4)]) ∧
  path_sum line_graph "time" [1; 2; 3; 4] 0 = Ok 35%Q.
Proof.
  assert (astar_pathfinding taxicab line_graph 1 4 "time"
    = Ok (Some [1; 2; 3; 4], Finite 35, [1; 2; 3; 4], [(1, 2); (2, 3); (3, 4)]))
    as Hrun by (vm_compute; reflexivity).
  split; [exact Hrun|].
  refine (proj1 (cost_consistency taxicab line_graph 1 4 "time" _ _ _ _ Hrun _)).
  intros [|[|[|[|i]]]] u v d; simpl; intros [= <-] [= <-]; try done;
    vm_compute; intros [= <-]; eexists; reflexivity.
Defined.

(** C6.  The explored-nodes trace of a search that returns, with a path or
    without one, holds no node twice. *)
Theorem explored_nodes_no_duplicates haversine_distance G start_node end_node
    weight path c explored edges :
  astar_pathfinding haversine_distance G start_node end_node weight
    = Ok (path, c, explored, edges) →
  NoDup explored.
Proof.
  intros Hrun%astar_good. simpl in Hrun.
  destruct path, c; try done. apply Hrun.
Qed.

Lemma explored_nodes_no_duplicates_witness :
  astar_pathfinding taxicab line_graph 1 4 "pollution"
    = Ok (Some [1; 2; 3; 4], Finite 25, [1; 2; 3; 4], [(1, 2); (2, 3); (3, 4)]) ∧
  NoDup [1; 2; 3; 4].
Proof.
  assert (astar_pathfinding taxicab line_graph 1 4 "pollution"
    = Ok (Some [1; 2; 3; 4], Finite 25, [1; 2; 3; 4], [(1, 2); (2, 3); (3, 4)]))
    as Hrun by (vm_compute; reflexivity).
  split; [exact Hrun|].
  exact (explored_nodes_no_duplicates taxicab line_graph 1 4 "pollution"
           _ _ _ _ Hrun).
Defined.

(** C10.  A returned path starts at the start node, ends at the end node,
    and each of its consecutive pairs is joined by an edge of the graph
    (the key-0 edge the search relaxed). *)
Theorem path_well_formed haversine_distance G start_node end_node weight
    path c explored edges :
  astar_pathfinding haversine_distance G start_node end_node weight
    = Ok (Some path, c, explored, edges) →
  head path = Some start_node ∧ last path = Some end_node ∧
  ∀ i u v, path !! i = Some u → path !! S i = Some v →
    ∃ d, G_edge G u v 0 = Ok d.
Proof.
  intros Hrun%astar_good. simpl in Hrun. destruct c as [c|]; [|done].
  destruct Hrun as [(cf & C & Htree) _].
  split; [by rewrite (tree_path_head _ _ _ _ _ _ _ _ Htree)|].
  split; [by eapply tree_path_last|].
  intros i u v Hu Hv.
  pose proof (tree_path_edges _ _ _ _ _ _ _ _ Htree) as Hall.
  rewrite Forall_forall in Hall.
  destruct (Hall (u, v)) as (d & _ & Hd & _); [by eapply consecutive_lookup|].
  eauto.
Qed.

Lemma path_well_formed_witness :
  astar_pathfinding taxicab line_graph 1 3 "time"
    = Ok (Some [1; 2; 3], Finite 15, [1; 2; 3], [(1, 2); (2, 3)]) ∧
  head [1; 2; 3] = Some 1 ∧ last [1; 2; 3] = Some 3.
Proof.
  assert (astar_pathfinding taxicab line_graph 1 3 "time"
    = Ok (Some [1; 2; 3], Finite 15, [1; 2; 3], [(1, 2); (2, 3)]))
    as Hrun by (vm_compute; reflexivity).
  split; [exact Hrun|].
  pose proof (path_well_formed taxicab line_graph 1 3 "time" _ _ _ _ Hrun)
    as (Hh & Hl & _).
  exact (conj Hh Hl).
Defined.

(** ** The trivial search *)

(** C5.  For a node [n] of the graph and any criterion, the search from
    [n] to [n] returns the path [[n]] with cost 0, and the statistics of
    that path are all zero, with zero segments and an empty road-type
    histogram; neither raises. *)
Theorem trivial_path haversine_distance G n weight :
  is_Some (nodes G !! n) →
  astar_pathfinding haversine_distance G n n weight
    = Ok (Some [n], Finite 0, [n], []) ∧
  ∀ route_name,
    calculate_route_stats G [n] route_name
      = Ok {| name := route_name; distance_km := 0; time_minutes := 0;
              pollution_score := 0; num_segments := 0; road_types := [] |}.
Proof.
  intros [d Hd]. split; [|done].
  unfold astar_pathfinding, G_node. rewrite Hd. simpl.
  unfold astar_step. simpl.
  rewrite decide_False by set_solver. rewrite decide_True by done.
  unfold reconstruct. simpl. by rewrite lookup_empty.
Qed.

Lemma trivial_path_witness :
  is_Some (nodes line_graph !! 3) ∧
  astar_pathfinding taxicab line_graph 3 3 "pollution"
    = Ok (Some [3], Finite 0, [3], []).
Proof.
  assert (is_Some (nodes line_graph !! 3)) as H
    by (vm_compute; eexists; reflexivity).
  split; [exact H|].
  exact (proj1 (trivial_path taxicab line_graph 3 "pollution" H)).
Defined.

(** ** The route handler *)

(** C9.  When both searches return and either has no path, the handler
    answers not-found; and whenever it answers with routes, both searches
    had a path: a route is never paired with a missing one. *)
Theorem no_partial_result nearest_nodes haversine_distance G
    start_lat start_lon end_lat end_lon r1 r2 :
  let start_node := nearest_nodes G start_lon start_lat in
  let end_node := nearest_nodes G end_lon end_lat in
  astar_pathfinding haversine_distance G start_node end_node "time" = Ok r1 →
  astar_pathfinding haversine_distance G start_node end_node "pollution"
    = Ok r2 →
  (r1.1.1.1 = None ∨ r2.1.1.1 = None →
   get_route nearest_nodes haversine_distance G
     (Some start_lat) (Some start_lon) (Some end_lat) (Some end_lon)
     = Ok NoRouteFound) ∧
  (∀ t p,
     get_route nearest_nodes haversine_distance G
       (Some start_lat) (Some start_lon) (Some end_lat) (Some end_lon)
       = Ok (Routes t p) →
     ∃ path1 path2, r1.1.1.1 = Some path1 ∧ r2.1.1.1 = Some path2 ∧
       path_to_coords G path1 = Ok (rj_path t) ∧
       path_to_coords G path2 = Ok (rj_path p)).
Proof.
  intros start_node end_node H1 H2. unfold get_route.
  fold start_node end_node. rewrite H1, H2.
  destruct r1 as [[[p1 c1] x1] e1], r2 as [[[p2 c2] x2] e2]. simpl.
  split.
  - intros [-> | ->]; simpl; [done|]. by rewrite orb_true_r.
  - intros t p. destruct (falsy p1 || falsy p2) eqn:F; [done|].
    apply orb_false_elim in F as [F1 F2].
    destruct p1 as [path1|]; [|done]. destruct p2 as [path2|]; [|done].
    simpl. intros H. inv_bind H. inv_bind H.
    unfold route_entry in H. inv_bind H. inv_bind H.
    inv_bind E1. inv_bind E1. inv_bind E1. injection E1 as <-.
    inv_bind E2. inv_bind E2. inv_bind E2. injection E2 as <-.
    injection H as <- <-. simpl. by exists path1, path2.
Qed.

Lemma no_partial_result_witness :
  astar_pathfinding taxicab line_graph 4 1 "time"
    = Ok (None, Infinity, [4], []) ∧
  astar_pathfinding taxicab line_graph 4 1 "pollution"
    = Ok (None, Infinity, [4], []) ∧
  get_route nearest_end taxicab line_graph (Some 0%Q) (Some 0%Q)
    (Some 0%Q) (Some 3%Q) = Ok NoRouteFound.
Proof.
  assert (astar_pathfinding taxicab line_graph 4 1 "time"
            = Ok (None, Infinity, [4], [])) as H1 by (vm_compute; reflexivity).
  assert (astar_pathfinding taxicab line_graph 4 1 "pollution"
            = Ok (None, Infinity, [4], [])) as H2 by (vm_compute; reflexivity).
  split; [exact H1|]. split; [exact H2|].
  exact (proj1 (no_partial_result nearest_end taxicab line_graph
                  0%Q 0%Q 0%Q 3%Q _ _ H1 H2) (or_introl eq_refl)).
Defined.

(** ** Parallel edges *)

Lemma assoc_fmap {A B} (f : A → B) (v : Z) (l : list (Z * A)) :
  assoc v ((λ p : Z * A, (p.1, f p.2)) <$> l) = f <$> assoc v l.
Proof.
  induction l as [|[k a] t IH]; [done|]. simpl. by case_decide.
Qed.

Lemma assoc_elem {A} (v : Z) (l : list (Z * A)) (a : A) :
  assoc v l = Some a → (v, a) ∈ l.
Proof.
  induction l as [|[k b] t IH]; [done|]. simpl. case_decide as Hk.
  - intros [= ->]. subst k. apply elem_of_cons. by left.
  - intros H. apply elem_of_cons. right. by apply IH.
Qed.

Lemma G_neighbors_view G u :
  G_neighbors G u =
  match key0_view G !! u with
  | Some l => Ok l.*1
  | None => Raise NetworkXError
  end.
Proof.
  unfold G_neighbors, key0_view. rewrite lookup_fmap.
  destruct (adj G !! u) as [nbrs|]; [|done]. simpl. f_equal.
  rewrite <- list_fmap_compose. by apply list_fmap_ext.
Qed.

Lemma G_edge_view G u v :
  G_edge G u v 0 =
  match key0_view G !! u with
  | Some l => of_option KeyError (mjoin (assoc v l))
  | None => Raise KeyError
  end.
Proof.
  unfold G_edge, key0_view. rewrite lookup_fmap.
  destruct (adj G !! u) as [nbrs|]; [|done]. simpl.
  rewrite (assoc_fmap (λ keys : gmap Z edge_data, keys !! 0)).
  by destruct (assoc v nbrs).
Qed.

Lemma search_fuel_view G :
  search_fuel G =
  S (S (sum_list ((λ p, length p.2) <$> map_to_list (key0_view G)))).
Proof.
  unfold search_fuel, key0_view. rewrite map_to_list_fmap.
  rewrite <- list_fmap_compose. do 3 f_equal.
  apply list_fmap_ext. intros _ [k nbrs] _. simpl. by rewrite length_fmap.
Qed.

Section key0.

Variable haversine_distance : Q → Q → Q → Q → Q.
Variables G G' : graph.
Variables start_node end_node : Z.
Variable weight : string.
Variable end_coords : Q * Q.
Hypothesis same_nodes : nodes G = nodes G'.
Hypothesis same_view : key0_view G = key0_view G'.

Lemma relax_key0 current current_g st neighbor :
  relax haversine_distance G weight end_coords current current_g st neighbor
  = relax haversine_distance G' weight end_coords current current_g st
      neighbor.
Proof.
  unfold relax, heuristic, G_node.
  by rewrite !G_edge_view, same_view, same_nodes.
Qed.

Lemma relax_all_key0 current current_g st nbrs :
  relax_all haversine_distance G weight end_coords current current_g st nbrs
  = relax_all haversine_distance G' weight end_coords current current_g st
      nbrs.
Proof.
  revert st. induction nbrs as [|m rest IH]; intros st; [done|].
  simpl. rewrite relax_key0.
  destruct (relax _ G' _ _ _ _ _ _); simpl; [apply IH|done|done].
Qed.

Lemma astar_step_key0 st :
  astar_step haversine_distance G start_node end_node weight end_coords st
  = astar_step haversine_distance G' start_node end_node weight end_coords st.
Proof.
  unfold astar_step.
  destruct (heappop (open_set st)) as [[[[f g] current] rest]|]; [|done].
  repeat case_decide; try done.
  rewrite !G_neighbors_view, same_view.
  destruct (key0_view G' !! current); [|done]. simpl.
  by rewrite relax_all_key0.
Qed.

Lemma astar_loop_key0 fuel st :
  astar_loop haversine_distance G start_node end_node weight fuel end_coords st
  = astar_loop haversine_distance G' start_node end_node weight fuel
      end_coords st.
Proof.
  revert st. induction fuel as [|fuel IH]; intros st; [done|].
  simpl. rewrite astar_step_key0.
  destruct (astar_step _ G' _ _ _ _ _) as [[r|st']| |]; simpl; done.
Qed.

End key0.

Lemma key0_route_cost_snoc G weight l p n acc g c :
  last l = Some p → key0_route_cost G weight l acc = Ok g →
  key0_cost G weight p n = Ok c →
  key0_route_cost G weight (l ++ [n]) acc = Ok (qadd g c).
Proof.
  intros Hl Hs Hc. revert acc Hl Hs.
  induction l as [|a [|b t] IH]; intros acc Hl Hs; [done| |].
  - injection Hl as ->. simpl in *. injection Hs as ->. by rewrite Hc.
  - change (key0_route_cost G weight (a :: (b :: t) ++ [n]) acc
            = Ok (qadd g c)).
    change (key0_route_cost G weight (a :: b :: t) acc = Ok g) in Hs.
    simpl in Hs. simpl.
    destruct (key0_cost G weight a b) as [c'| |]; simpl in *; try done.
    apply IH; [done|]. exact Hs.
Qed.

(** The cost of a branch of the predecessor tree is the sum of the costs
    of its key-0 edges. *)
Lemma tree_path_key0_cost G start_node weight cf C n l g :
  tree_path G start_node weight cf C n l g →
  key0_route_cost G weight l 0 = Ok g.
Proof.
  induction 1 as [|n p l gp d c Hn Hp Hl IH Hd Hc]; [done|].
  eapply key0_route_cost_snoc; [by eapply tree_path_last|done|].
  unfold key0_cost. rewrite Hd. exact Hc.
Qed.

(** C1 (as the code has it).  A relaxation of a neighbour that is not
    closed reads the key-0 edge of the pair and charges that edge's cost
    under the criterion: it either keeps a recorded cost that is no worse,
    or records the current cost plus the key-0 cost, with the link.  The
    cost of a returned path is the sum of the key-0 costs of its steps.
    Other parallel edges never matter: two graphs with the same nodes, the
    same neighbours in the same order and the same key-0 edges give the
    same result. *)
Theorem search_reads_key0_edge haversine_distance G start_node end_node
    weight :
  (∀ end_coords current current_g st neighbor st',
     relax haversine_distance G weight end_coords current current_g st
       neighbor = Ok st' →
     neighbor ∉ closed_set st →
     ∃ c, key0_cost G weight current neighbor = Ok c ∧
       ((st' = st ∧
         ∃ g, g_scores st !! neighbor = Some g ∧ (g <= qadd current_g c)%Q) ∨
        (g_scores st' !! neighbor = Some (qadd current_g c) ∧
         came_from st' !! neighbor = Some current ∧
         ∀ g, g_scores st !! neighbor = Some g →
           (qadd current_g c < g)%Q))) ∧
  (∀ path c explored edges,
     astar_pathfinding haversine_distance G start_node end_node weight
       = Ok (Some path, Finite c, explored, edges) →
     key0_route_cost G weight path 0 = Ok c) ∧
  (∀ G', nodes G = nodes G' → key0_view G = key0_view G' →
     astar_pathfinding haversine_distance G start_node end_node weight
     = astar_pathfinding haversine_distance G' start_node end_node weight).
Proof.
  split; [|split].
  - intros end_coords current current_g st neighbor st' Hrelax Hopen.
    destruct (relax_cases _ _ _ _ _ _ _ _ _ Hrelax)
      as [[-> [Hc|(d & c & g & Hd & Hc & Hg & Hle)]]
         |(_ & d & c & hn & Hd & Hc & _ & Hlt & ->)]; [done| |].
    + exists c. split; [unfold key0_cost; by rewrite Hd|].
      left. split; [done|]. by exists g.
    + exists c. split; [unfold key0_cost; by rewrite Hd|].
      right. simpl. by rewrite !lookup_insert_eq.
  - intros path c explored edges Hrun.
    apply astar_good in Hrun as [(cf & C & Htree) _].
    by eapply tree_path_key0_cost.
  - intros G' Hn Hv. unfold astar_pathfinding, G_node.
    rewrite !search_fuel_view, Hn, Hv.
    destruct (nodes G' !! end_node); [|done].
    cbn [of_option mbind res_mbind res_bind]. by apply astar_loop_key0.
Qed.

Lemma search_reads_key0_edge_witness :
  astar_pathfinding taxicab parallel_graph 1 2 "time"
    = Ok (Some [1; 2], Finite 10, [1; 2], [(1, 2)]) ∧
  key0_route_cost parallel_graph "time" [1; 2] 0 = Ok 10%Q ∧
  nodes parallel_graph = nodes single_graph ∧
  key0_view parallel_graph = key0_view single_graph ∧
  astar_pathfinding taxicab parallel_graph 1 2 "time"
  = astar_pathfinding taxicab single_graph 1 2 "time".
Proof.
  assert (astar_pathfinding taxicab parallel_graph 1 2 "time"
            = Ok (Some [1; 2], Finite 10, [1; 2], [(1, 2)])) as Hrun
    by (vm_compute; reflexivity).
  assert (nodes parallel_graph = nodes single_graph) as Hn by reflexivity.
  assert (key0_view parallel_graph = key0_view single_graph) as Hv
    by (vm_compute; reflexivity).
  destruct (search_reads_key0_edge taxicab parallel_graph 1 2 "time")
    as (_ & Hcost & Hsame).
  split; [exact Hrun|]. split; [exact (Hcost _ _ _ _ Hrun)|].
  split; [exact Hn|]. split; [exact Hv|].
  exact (Hsame single_graph Hn Hv).
Defined.

(** C1, refuted as stated: with a key-0 edge of cost 10 and a key-1 edge
    of cost 3 between the same two nodes, the search returns cost 10, not
    the least cost 3. *)
Lemma parallel_edge_counterexample :
  astar_pathfinding taxicab parallel_graph 1 2 "time"
    = Ok (Some [1; 2], Finite 10, [1; 2], [(1, 2)]) ∧
  min_edge_cost parallel_graph "time" 1 2 = Ok 3%Q ∧
  ¬ uses_min_cost_edge taxicab parallel_graph 1 2 "time".
Proof.
  assert (astar_pathfinding taxicab parallel_graph 1 2 "time"
            = Ok (Some [1; 2], Finite 10, [1; 2], [(1, 2)])) as Hrun
    by (vm_compute; reflexivity).
  split; [exact Hrun|]. split; [vm_compute; reflexivity|].
  intros H. specialize (H _ _ _ _ Hrun). vm_compute in H. discriminate H.
Qed.

(** ** Missing attributes *)

(** C8 (as the code has it).  For an edge without the criterion's
    attribute the cost is the edge's [length] attribute as it stands, 100
    when that is absent too, with no conversion to the criterion's units;
    when this is a number the relaxation raises nothing and records, if
    anything, the current cost plus that length. *)
Theorem missing_attribute_fallback haversine_distance G weight end_coords
    current current_g st neighbor d len :
  G_edge G current neighbor 0 = Ok d →
  d !! weight = None →
  get d "length" (ANum 100) = ANum len →
  is_Some (nodes G !! neighbor) →
  edge_cost weight d = ANum len ∧
  (d !! "length" = None → len = 100%Q) ∧
  ∃ st',
    relax haversine_distance G weight end_coords current current_g st neighbor
      = Ok st' ∧
    (g_scores st' !! neighbor = g_scores st !! neighbor ∨
     g_scores st' !! neighbor = Some (qadd current_g len)).
Proof.
  intros Hd Hw Hlen [nd Hnd].
  assert (edge_cost weight d = ANum len) as Hcost.
  { unfold edge_cost. unfold get at 1. by rewrite Hw. }
  split; [done|]. split.
  { intros Hnone. unfold get in Hlen. rewrite Hnone in Hlen. simpl in Hlen.
    by injection Hlen as <-. }
  unfold relax. case_decide; [eauto|].
  rewrite Hd. simpl. rewrite Hcost. simpl.
  destruct (match g_scores st !! neighbor with
            | Some g => qltb (qadd current_g len) g | None => true end);
    [|eauto].
  unfold heuristic, G_node. rewrite Hnd. simpl.
  eexists. split; [done|]. simpl. right. by rewrite lookup_insert_eq.
Qed.

Lemma missing_attribute_fallback_witness :
  G_edge bare_graph 1 2 0 = Ok ∅ ∧
  edge_cost "time" (∅ : edge_data) = ANum 100 ∧
  ∃ st',
    relax taxicab bare_graph "time" (0, 1)%Q 1 0%Q
      (closed_state (initial_state 1) [] 1) 2 = Ok st' ∧
    (g_scores st' !! 2 = g_scores (closed_state (initial_state 1) [] 1) !! 2 ∨
     g_scores st' !! 2 = Some (qadd 0 100)).
Proof.
  assert (G_edge bare_graph 1 2 0 = Ok ∅) as Hd by (vm_compute; reflexivity).
  split; [exact Hd|].
  pose proof (missing_attribute_fallback taxicab bare_graph "time" (0, 1)%Q
                1 0%Q (closed_state (initial_state 1) [] 1) 2 ∅ 100%Q Hd)
    as H.
  destruct H as (Hcost & _ & Hrelax).
  - vm_compute; reflexivity.
  - vm_compute; reflexivity.
  - vm_compute; eexists; reflexivity.
  - exact (conj Hcost Hrelax).
Defined.

(** C8, refuted as stated: the fallback is not converted to the
    criterion's units.  An edge without attributes costs 100 under the time
    criterion, which is the travel time of 100 metres at no speed of the
    weighting scheme. *)
Lemma fallback_conversion_counterexample :
  edge_cost "time" (∅ : edge_data) = ANum 100 ∧
  Forall (λ p : string * Q, time_of 100 p.2 ≠ 100%Q) speed_limits_kmh ∧
  ¬ time_fallback_converted ∅.
Proof.
  split; [reflexivity|].
  assert (Forall (λ p : string * Q, time_of 100 p.2 ≠ 100%Q) speed_limits_kmh)
    as Hall by (repeat constructor; vm_compute; discriminate).
  split; [exact Hall|].
  intros H. destruct (H (lookup_empty _)) as (len & hw & speed & Hlen & Hs & Hc).
  assert (len = 100%Q) as -> by (by injection Hlen).
  assert ((hw, speed) ∈ speed_limits_kmh) as Hin.
  { clear -Hs. induction speed_limits_kmh as [|[k v] t IH]; [done|].
    simpl in Hs. case_decide as Hk.
    - injection Hs as ->. subst k. apply elem_of_cons. by left.
    - apply elem_of_cons. right. by apply IH. }
  rewrite Forall_forall in Hall. apply (Hall _ Hin). simpl.
  change (edge_cost "time" ∅) with (ANum 100) in Hc. by injection Hc.
Qed.

(** ** Termination *)

Lemma pending_mono (L : list (Z * list (Z * gmap Z edge_data))) (C C' : gset Z) :
  C ⊆ C' →
  (sum_list ((λ p, if decide (p.1 ∈ C') then 0 else length p.2) <$> L)
   ≤ sum_list ((λ p, if decide (p.1 ∈ C) then 0 else length p.2) <$> L))%nat.
Proof.
  intros HC. induction L as [|[k nbrs] t IH]; [done|]. csimpl.
  repeat case_decide; first [lia|set_solver].
Qed.

Lemma pending_close_list (L : list (Z * list (Z * gmap Z edge_data)))
    (C : gset Z) u nbrs :
  (u, nbrs) ∈ L → u ∉ C →
  (sum_list ((λ p, if decide (p.1 ∈ {[u]} ∪ C) then 0 else length p.2) <$> L)
   + length nbrs
   ≤ sum_list ((λ p, if decide (p.1 ∈ C) then 0 else length p.2) <$> L))%nat.
Proof.
  intros Hin Hu. induction L as [|[k l] t IH]; [by apply elem_of_nil in Hin|].
  apply elem_of_cons in Hin as [[= <- <-]|Hin]; csimpl.
  - rewrite decide_True by set_solver. rewrite decide_False by done.
    pose proof (pending_mono t C ({[u]} ∪ C)) as H.
    specialize (H ltac:(set_solver)). lia.
  - specialize (IH Hin). repeat case_decide; first [lia|set_solver].
Qed.

Lemma pending_close G C u nbrs :
  adj G !! u = Some nbrs → u ∉ C →
  (pending G ({[u]} ∪ C) + length nbrs ≤ pending G C)%nat.
Proof.
  intros Hu HC. apply pending_close_list; [|done].
  by apply elem_of_map_to_list.
Qed.

Lemma pending_empty G : S (S (pending G ∅)) = search_fuel G.
Proof.
  unfold pending, search_fuel. do 3 f_equal.
Qed.

Lemma heappop_length (h : list entry) m r :
  heappop h = Some (m, r) → length h = S (length r).
Proof. intros H%heappop_perm. by rewrite H. Qed.

Section total.

Variable haversine_distance : Q → Q → Q → Q → Q.
Variable G : graph.
Variables start_node end_node : Z.
Variable weight : string.
Variable end_coords : Q * Q.

Local Abbreviation relaxG := (relax haversine_distance G weight end_coords).
Local Abbreviation relax_allG :=
  (relax_all haversine_distance G weight end_coords).
Local Abbreviation stepG :=
  (astar_step haversine_distance G start_node end_node weight end_coords).
Local Abbreviation loopG :=
  (astar_loop haversine_distance G start_node end_node weight).
Local Abbreviation search_inv :=
  (search_inv haversine_distance G start_node weight end_coords).

Lemma relax_fuel current current_g st neighbor :
  relaxG current current_g st neighbor ≠ OutOfFuel.
Proof.
  unfold relax, heuristic, G_node, G_edge. case_decide; [done|].
  destruct (adj G !! current) as [nbrs|]; [|done]. simpl.
  destruct (assoc neighbor nbrs) as [keys|]; [|done]. simpl.
  destruct (keys !! 0) as [d|]; [|done]. simpl.
  destruct (edge_cost weight d); try done. simpl.
  destruct (match g_scores st !! neighbor with
            | Some g => qltb _ g | None => true end); [|done].
  by destruct (nodes G !! neighbor).
Qed.

Lemma relax_all_fuel current current_g st nbrs :
  relax_allG current current_g st nbrs ≠ OutOfFuel.
Proof.
  revert st. induction nbrs as [|m rest IH]; intros st; [done|]. simpl.
  pose proof (relax_fuel current current_g st m) as H.
  destruct (relaxG current current_g st m); simpl; [apply IH|done|done].
Qed.

Lemma relax_size current current_g st neighbor st' :
  relaxG current current_g st neighbor = Ok st' →
  (length (open_set st') ≤ S (length (open_set st)))%nat ∧
  closed_set st' = closed_set st.
Proof.
  unfold relax. case_decide as Hc; [intros [= <-]; split; [lia|done]|].
  intros H. inv_bind H. inv_bind H.
  destruct (match g_scores st !! neighbor with
            | Some g => qltb _ g | None => true end);
    [|injection H as <-; split; [lia|done]].
  inv_bind H. injection H as <-. simpl. split; [lia|done].
Qed.

Lemma relax_all_size current current_g st nbrs st' :
  relax_allG current current_g st nbrs = Ok st' →
  (length (open_set st') ≤ length nbrs + length (open_set st))%nat ∧
  closed_set st' = closed_set st.
Proof.
  revert st. induction nbrs as [|m rest IH]; intros st; simpl.
  - intros [= <-]. split; [lia|done].
  - intros H. inv_bind H. apply relax_size in E as [E1 E2].
    apply IH in H as [H1 H2]. split; [lia|congruence].
Qed.

(** Every turn of the loop that goes on lowers the measure. *)
Lemma step_measure st st' :
  stepG st = Ok (inr st') → (measure G st' < measure G st)%nat.
Proof.
  unfold astar_step, measure.
  destruct (heappop (open_set st)) as [[[[f g] current] rest]|] eqn:Hpop;
    [|done].
  apply heappop_length in Hpop. case_decide as Hcur.
  - intros [= <-]. simpl. lia.
  - case_decide as Hend; [intros H; inv_bind H; done|].
    unfold G_neighbors. destruct (adj G !! current) as [nbrs|] eqn:Hadj; [|done].
    simpl. intros H. inv_bind H. injection H as <-.
    apply relax_all_size in E as [E1 E2]. simpl in *.
    rewrite length_fmap in E1. rewrite E2.
    pose proof (pending_close _ _ _ _ Hadj Hcur). lia.
Qed.

(** In a state of the search the path reconstruction stays within its
    fuel. *)
Lemma step_fuel st : search_inv st → stepG st ≠ OutOfFuel.
Proof.
  intros Hinv. unfold astar_step.
  destruct (heappop (open_set st)) as [[[[f g] current] rest]|] eqn:Hpop;
    [|done].
  case_decide as Hcur; [done|].
  destruct (close_inv _ _ _ _ _ _ _ _ _ _ Hinv Hpop Hcur) as [Hrun Hg].
  case_decide as Hend.
  - destruct Hrun as [Hstart Hcf Hclosed Hheap Hbest Hexpl]. simpl in *.
    destruct (Hclosed current) as (l & g' & Hl & Hg' & Hlen);
      [apply elem_of_close_l|].
    subst current.
    assert (came_from st !! start_node = None) as Hs.
    { destruct (came_from st !! start_node) as [p|] eqn:Hp; [|done].
      by destruct (Hcf _ _ Hp) as (_ & ? & _). }
    by rewrite (reconstruct_tree _ _ _ _ _ _ _ _ _ Hl Hs Hlen).
  - unfold G_neighbors. destruct (adj G !! current) as [nbrs|]; [|done]. simpl.
    pose proof (relax_all_fuel current g
                  (closed_state st rest current) nbrs.*1) as H.
    unfold closed_state in H.
    destruct (relax_all _ _ _ _ _ _ _ _); done.
Qed.

Lemma astar_loop_fuel fuel st :
  search_inv st → (measure G st < fuel)%nat →
  loopG fuel end_coords st ≠ OutOfFuel.
Proof.
  revert st. induction fuel as [|fuel IH]; intros st Hinv Hfuel; [lia|].
  simpl. pose proof (step_fuel st Hinv) as Hstep.
  destruct (stepG st) as [[r|st']| |] eqn:E; simpl; try done.
  apply IH.
  - right. by eapply step_inv.
  - apply step_measure in E. lia.
Qed.

End total.

(** The search always returns or raises: its main loop never exhausts
    [search_fuel], nor the path reconstruction its own bound. *)
Lemma astar_total haversine_distance G start_node end_node weight :
  astar_pathfinding haversine_distance G start_node end_node weight
  ≠ OutOfFuel.
Proof.
  unfold astar_pathfinding, G_node.
  destruct (nodes G !! end_node) as [d|]; [|done].
  cbn [of_option mbind res_mbind res_bind]. apply astar_loop_fuel; [by left|].
  unfold measure. simpl. rewrite <- pending_empty. lia.
Qed.

(** ** Unreachable targets *)

Lemma walk_back_no_raise fuel cf curr path e :
  walk_back fuel cf curr path ≠ Raise e.
Proof.
  revert curr path. induction fuel as [|fuel IH]; intros curr path; simpl;
    destruct (cf !! curr); done.
Qed.

Lemma G_edge_successor G u v key d : G_edge G u v key = Ok d → successor G u v.
Proof.
  unfold G_edge. intros H. inv_bind H. rename a into nbrs. inv_bind H.
  rename a into keys. exists nbrs.
  split; [by destruct (adj G !! u) as [?|]; simplify_eq/=|].
  apply list_elem_of_fmap. exists (v, keys). split; [done|].
  apply assoc_elem. by destruct (assoc v nbrs); simplify_eq/=.
Qed.

Lemma tree_path_reachable G start_node weight cf C n l g :
  tree_path G start_node weight cf C n l g → reachable G start_node n.
Proof.
  induction 1 as [|n p l gp d c Hn Hp _ IH Hd Hc]; [apply rtc_refl|].
  eapply rtc_r; [exact IH|]. by eapply G_edge_successor.
Qed.

Section no_raise.

Variable haversine_distance : Q → Q → Q → Q → Q.
Variable G : graph.
Variables start_node end_node : Z.
Variable weight : string.
Variable end_coords : Q * Q.
Hypothesis wf : wf_graph G weight.

Local Abbreviation relaxG := (relax haversine_distance G weight end_coords).
Local Abbreviation relax_allG :=
  (relax_all haversine_distance G weight end_coords).
Local Abbreviation stepG :=
  (astar_step haversine_distance G start_node end_node weight end_coords).
Local Abbreviation loopG :=
  (astar_loop haversine_distance G start_node end_node weight).
Local Abbreviation search_inv :=
  (search_inv haversine_distance G start_node weight end_coords).

Lemma relax_wf current current_g st neighbor :
  successor G current neighbor → heap_in_graph G st →
  ∃ st', relaxG current current_g st neighbor = Ok st' ∧ heap_in_graph G st'.
Proof.
  intros Hsucc Hheap. destruct (wf _ _ Hsucc) as ([nd Hnd] & Hadj & d & c & Hd & Hc).
  unfold relax. case_decide; [eauto|].
  rewrite Hd. simpl. rewrite Hc. simpl.
  destruct (match g_scores st !! neighbor with
            | Some g => qltb _ g | None => true end); [|eauto].
  unfold heuristic, G_node. rewrite Hnd. simpl.
  eexists. split; [done|]. unfold heap_in_graph. simpl.
  by constructor.
Qed.

Lemma relax_all_wf current current_g st nbrs :
  Forall (successor G current) nbrs → heap_in_graph G st →
  ∃ st', relax_allG current current_g st nbrs = Ok st' ∧ heap_in_graph G st'.
Proof.
  revert st. induction nbrs as [|m rest IH]; intros st Hall Hheap; simpl.
  - eauto.
  - apply Forall_cons_1 in Hall as [Hm Hall].
    destruct (relax_wf current current_g st m Hm Hheap) as (st1 & -> & H1).
    simpl. by apply IH.
Qed.

Lemma step_wf st e :
  heap_in_graph G st → stepG st ≠ Raise e.
Proof.
  intros Hheap. unfold astar_step.
  destruct (heappop (open_set st)) as [[[[f g] current] rest]|] eqn:Hpop;
    [|done].
  case_decide as Hcur; [done|]. case_decide as Hend.
  - unfold reconstruct.
    pose proof (walk_back_no_raise (length (explored_nodes st ++ [current]))
                  (came_from st) end_node [] e) as H.
    destruct (walk_back _ _ _ _) as [[path last]| |]; simpl;
      [done|congruence|done].
  - apply heappop_perm in Hpop. unfold heap_in_graph in Hheap.
    rewrite Hpop in Hheap. apply Forall_cons_1 in Hheap as [[nbrs Hc] Hrest].
    simpl in Hc. unfold G_neighbors. rewrite Hc. simpl.
    destruct (relax_all_wf current g (closed_state st rest current) nbrs.*1)
      as (st' & Hst' & _).
    + apply Forall_forall. intros v Hv. by exists nbrs.
    + done.
    + unfold closed_state in Hst'. by rewrite Hst'.
Qed.

Lemma step_heap_in_graph st st' :
  heap_in_graph G st → stepG st = Ok (inr st') → heap_in_graph G st'.
Proof.
  intros Hheap. unfold astar_step.
  destruct (heappop (open_set st)) as [[[[f g] current] rest]|] eqn:Hpop;
    [|done].
  apply heappop_perm in Hpop. unfold heap_in_graph in Hheap.
  rewrite Hpop in Hheap. apply Forall_cons_1 in Hheap as [[nbrs Hc] Hrest].
  case_decide as Hcur; [by intros [= <-]|].
  case_decide as Hend; [intros H; by inv_bind H|].
  simpl in Hc. unfold G_neighbors. rewrite Hc. simpl.
  destruct (relax_all_wf current g (closed_state st rest current) nbrs.*1)
    as (st1 & Hst1 & Hh1).
  - apply Forall_forall. intros v Hv. by exists nbrs.
  - done.
  - unfold closed_state in Hst1. rewrite Hst1. simpl. by intros [= <-].
Qed.

Lemma astar_loop_wf fuel st e :
  heap_in_graph G st → loopG fuel end_coords st ≠ Raise e.
Proof.
  revert st. induction fuel as [|fuel IH]; intros st Hheap; [done|].
  simpl. pose proof (step_wf st e Hheap) as Hstep.
  destruct (stepG st) as [[r|st']| |] eqn:E; simpl; [done| |congruence|done].
  apply IH. by eapply step_heap_in_graph.
Qed.

End no_raise.



(** C4, refuted as stated: not for every graph.  When the only edge out of
    the start is stored under key 1 and the goal is detached, no directed
    path leads to the goal, and the search raises [KeyError] at the key-0
    lookup instead of returning no path. *)
Lemma unreachable_key1_counterexample :
  ¬ reachable detached_graph 1 3 ∧
  astar_pathfinding taxicab detached_graph 1 3 "time" = Raise KeyError ∧
  ¬ unreachable_not_an_error taxicab detached_graph 1 3 "time".
Proof.
  assert (¬ reachable detached_graph 1 3) as Hun.
  { intros H.
    destruct (rtc_inv _ _ H) as [?|(v & (nbrs & Hn & Hv) & H')]; [done|].
    vm_compute in Hn. injection Hn as <-. simpl in Hv.
    apply list_elem_of_singleton in Hv as ->.
    destruct (rtc_inv _ _ H') as [?|(w & (nbrs & Hn & Hw) & _)]; [done|].
    vm_compute in Hn. injection Hn as <-. by apply elem_of_nil in Hw. }
  assert (astar_pathfinding taxicab detached_graph 1 3 "time"
          = Raise KeyError) as Hrun by (vm_compute; reflexivity).
  split; [exact Hun|]. split; [exact Hrun|].
  intros H. destruct (H Hun) as (explored & edges & Hok).
  rewrite Hrun in Hok. discriminate Hok.
Qed.

(** ** Pop order and reproducibility *)

Lemma entry_le_antisym (a b : entry) :
  entry_canon a → entry_canon b → entry_le a b → entry_le b a → a = b.
Proof.
  intros [Haf Hag] [Hbf Hbg]. unfold entry_le. rewrite !entry_leb_spec.
  intros Hab Hba. destruct a as [[fa ga] na], b as [[fb gb] nb]. simpl in *.
  assert (fa == fb)%Q as Hf
    by (destruct Hab as [?|[? _]], Hba as [?|[? _]]; lra).
  assert (ga == gb)%Q as Hg
    by (destruct Hab as [?|[? [?|[? _]]]], Hba as [?|[? [?|[? _]]]]; lra).
  assert (na = nb) as ->
    by (destruct Hab as [?|[? [?|[? ?]]]], Hba as [?|[? [?|[? ?]]]];
        first [lra|lia]).
  by rewrite (canon_eq fa fb), (canon_eq ga gb).
Qed.

(** The popped entry does not depend on how the frontier is laid out. *)
Lemma heappop_layout (h1 h2 : list entry) m r1 :
  h1 ≡ₚ h2 → Forall entry_canon h1 → heappop h1 = Some (m, r1) →
  ∃ r2, heappop h2 = Some (m, r2) ∧ r1 ≡ₚ r2.
Proof.
  intros Hperm Hcanon Hpop1.
  destruct (heappop h2) as [[m2 r2]|] eqn:Hpop2.
  - pose proof (heappop_perm _ _ _ Hpop1) as P1.
    pose proof (heappop_perm _ _ _ Hpop2) as P2.
    pose proof (heappop_least _ _ _ Hpop1) as L1.
    pose proof (heappop_least _ _ _ Hpop2) as L2.
    rewrite Forall_forall in L1, L2, Hcanon.
    assert (m ∈ h1) as Hm by (rewrite P1; apply elem_of_cons; by left).
    assert (m2 ∈ h2) as Hm2 by (rewrite P2; apply elem_of_cons; by left).
    assert (m = m2) as <-.
    { apply entry_le_antisym.
      - by apply Hcanon.
      - apply Hcanon. by rewrite Hperm.
      - apply L1. by rewrite Hperm.
      - apply L2. by rewrite <- Hperm. }
    exists r2. split; [done|].
    apply (Permutation_cons_inv (a := m)). by rewrite <- P1, <- P2.
  - destruct h2; [|done]. apply Permutation_nil_r in Hperm. by subst h1.
Qed.

Section layout.

Variable haversine_distance : Q → Q → Q → Q → Q.
Variable G : graph.
Variables start_node end_node : Z.
Variable weight : string.
Variable end_coords : Q * Q.

Local Abbreviation relaxG := (relax haversine_distance G weight end_coords).
Local Abbreviation relax_allG :=
  (relax_all haversine_distance G weight end_coords).
Local Abbreviation stepG :=
  (astar_step haversine_distance G start_node end_node weight end_coords).
Local Abbreviation loopG :=
  (astar_loop haversine_distance G start_node end_node weight).

(** Relaxing from two layouts of one frontier: the same outcome, the new
    frontiers again two layouts of one. *)
Lemma relax_layout current current_g st1 st2 neighbor :
  same_frontier st1 st2 → Forall entry_canon (open_set st1) →
  match relaxG current current_g st1 neighbor,
        relaxG current current_g st2 neighbor with
  | Ok st1', Ok st2' =>
      same_frontier st1' st2' ∧ Forall entry_canon (open_set st1')
  | Raise e1, Raise e2 => e1 = e2
  | OutOfFuel, OutOfFuel => True
  | _, _ => False
  end.
Proof.
  intros (Hh & Hcf & Hgs & Hx & He & Hc) Hcanon. unfold relax.
  rewrite <- Hc, <- Hgs, <- Hcf, <- He, <- Hx.
  case_decide; [done|].
  destruct (G_edge G current neighbor 0) as [d| |]; simpl; [|done|done].
  destruct (as_num (edge_cost weight d)) as [c| |]; simpl; [|done|done].
  destruct (match g_scores st1 !! neighbor with
            | Some g => qltb _ g | None => true end); [|done].
  destruct (heuristic haversine_distance G weight end_coords neighbor)
    as [h| |]; simpl; [|done|done].
  split.
  - unfold same_frontier, heappush. simpl. by rewrite Hh.
  - constructor; [|done]. split; apply qadd_canon.
Qed.

Lemma relax_all_layout current current_g nbrs st1 st2 :
  same_frontier st1 st2 → Forall entry_canon (open_set st1) →
  match relax_allG current current_g st1 nbrs,
        relax_allG current current_g st2 nbrs with
  | Ok st1', Ok st2' =>
      same_frontier st1' st2' ∧ Forall entry_canon (open_set st1')
  | Raise e1, Raise e2 => e1 = e2
  | OutOfFuel, OutOfFuel => True
  | _, _ => False
  end.
Proof.
  revert st1 st2. induction nbrs as [|m rest IH]; intros st1 st2 Hs Hcanon.
  - done.
  - simpl. pose proof (relax_layout current current_g st1 st2 m Hs Hcanon) as H.
    destruct (relaxG current current_g st1 m) as [st1'| |],
             (relaxG current current_g st2 m) as [st2'| |]; simpl; try done.
    destruct H as [Hs' Hcanon']. by apply IH.
Qed.

Lemma step_layout st1 st2 :
  same_frontier st1 st2 → Forall entry_canon (open_set st1) →
  match stepG st1, stepG st2 with
  | Ok (inl r1), Ok (inl r2) => r1 = r2
  | Ok (inr st1'), Ok (inr st2') =>
      same_frontier st1' st2' ∧ Forall entry_canon (open_set st1')
  | Raise e1, Raise e2 => e1 = e2
  | OutOfFuel, OutOfFuel => True
  | _, _ => False
  end.
Proof.
  intros (Hh & Hcf & Hgs & Hx & He & Hc) Hcanon. unfold astar_step.
  rewrite <- Hc, <- Hcf, <- He, <- Hx, <- Hgs.
  destruct (heappop (open_set st1)) as [[[[f g] current] rest1]|] eqn:Hpop1.
  - destruct (heappop_layout _ _ _ _ Hh Hcanon Hpop1) as (rest2 & -> & Hrest).
    assert (Forall entry_canon rest1) as Hcanon1.
    { apply heappop_perm in Hpop1. rewrite Hpop1 in Hcanon.
      by apply Forall_cons_1 in Hcanon as [_ ?]. }
    case_decide; [done|]. case_decide.
    + by destruct (reconstruct _ _ _ _).
    + destruct (G_neighbors G current) as [nbrs| |]; simpl; [|done|done].
      pose proof (relax_all_layout current g nbrs
                    (closed_state st1 rest1 current)
                    (closed_state st1 rest2 current)) as Hr.
      unfold closed_state in Hr. specialize (Hr ltac:(done) Hcanon1).
      destruct (relax_all _ _ _ _ _ _ _ _) as [st1'| |],
               (relax_all _ _ _ _ _ _ _ _) as [st2'| |]; simpl; done.
  - destruct (heappop (open_set st2)) as [[m2 r2]|] eqn:Hpop2; [|done].
    destruct (open_set st1); [|done]. apply Permutation_nil_l in Hh.
    by rewrite <- Hh in Hpop2.
Qed.

Lemma astar_loop_layout fuel st1 st2 :
  same_frontier st1 st2 → Forall entry_canon (open_set st1) →
  loopG fuel end_coords st1 = loopG fuel end_coords st2.
Proof.
  revert st1 st2. induction fuel as [|fuel IH]; intros st1 st2 Hs Hcanon;
    [done|].
  simpl. pose proof (step_layout st1 st2 Hs Hcanon) as H.
  destruct (stepG st1) as [[r1|st1']| |], (stepG st2) as [[r2|st2']| |];
    simpl; try done; [congruence| |congruence].
  destruct H. by apply IH.
Qed.

Local Abbreviation scored :=
  (scored haversine_distance G start_node weight end_coords).
Local Abbreviation in_run :=
  (in_run haversine_distance G start_node end_node weight end_coords).

(** What a relaxation pushes, if anything: the new cost through the key-0
    edge plus the heuristic of the neighbour, that cost, the neighbour. *)
Lemma relax_pushes current current_g st neighbor st' :
  relaxG current current_g st neighbor = Ok st' →
  st' = st ∨
  ∃ c hn, key0_cost G weight current neighbor = Ok c ∧
    heuristic haversine_distance G weight end_coords neighbor = Ok hn ∧
    open_set st' =
      heappush (open_set st)
        (qadd (qadd current_g c) hn, qadd current_g c, neighbor) ∧
    explored_nodes st' = explored_nodes st.
Proof.
  intros H.
  destruct (relax_cases _ _ _ _ _ _ _ _ _ H)
    as [[-> _]|(_ & d & c & hn & Hd & Hc & Hh & _ & ->)]; [by left|].
  right. exists c, hn. unfold key0_cost. by rewrite Hd.
Qed.

Lemma relax_all_explored current current_g nbrs st st' :
  relax_allG current current_g st nbrs = Ok st' →
  explored_nodes st' = explored_nodes st.
Proof.
  revert st. induction nbrs as [|m rest IH]; intros st; simpl.
  - by intros [= <-].
  - intros H. inv_bind H. rename a into st1. rewrite (IH st1 H).
    by destruct (relax_pushes _ _ _ _ _ E) as [->|(c & hn & _ & _ & _ & Hx)].
Qed.

Lemma relax_all_scored current current_g nbrs st st' :
  relax_allG current current_g st nbrs = Ok st' →
  Forall scored (open_set st) → Forall scored (open_set st').
Proof.
  revert st. induction nbrs as [|m rest IH]; intros st; simpl.
  - by intros [= <-].
  - intros H Hall. inv_bind H. rename a into st1.
    destruct (relax_pushes _ _ _ _ _ E) as [->|(c & hn & _ & Hh & Hopen & _)];
      [exact (IH _ H Hall)|].
    apply (IH st1 H). rewrite Hopen. constructor; [|done].
    right. by exists hn.
Qed.

(** Every entry of the frontier, at every turn of a run, is the start
    entry or carries [f = g + h]. *)
Lemma in_run_scored st : in_run st → Forall scored (open_set st).
Proof.
  induction 1 as [|st st' _ IH Hstep].
  - constructor; [by left|constructor].
  - destruct (step_cases _ _ _ _ _ _ _ _ Hstep)
      as (f & g & current & rest & Hpop & Hcases).
    apply heappop_perm in Hpop. rewrite Hpop in IH.
    apply Forall_cons_1 in IH as [_ Hrest].
    destruct Hcases as [[_ ->]|(_ & _ & nbrs & _ & Hrelax)]; [done|].
    by apply relax_all_scored in Hrelax.
Qed.

(** The turn of the loop acts on the entry [heappop] returns: it drops it
    when its node is closed, returns its [g] as the cost when its node is
    the goal, expands its node otherwise. *)
Lemma step_pops st m r :
  heappop (open_set st) = Some (m, r) →
  match stepG st with
  | Ok (inl (path, c, explored, edges)) =>
      m.2 = end_node ∧ c = Finite m.1.2 ∧
      explored = explored_nodes st ++ [m.2]
  | Ok (inr st') =>
      if decide (m.2 ∈ closed_set st)
      then open_set st' = r ∧ explored_nodes st' = explored_nodes st
      else explored_nodes st' = explored_nodes st ++ [m.2]
  | _ => True
  end.
Proof.
  intros Hpop. destruct (stepG st) as [[res|st']| |] eqn:Hstep; [| |done|done].
  - destruct (result_cases _ _ _ _ _ _ _ _ Hstep)
      as [[Hnone _]|(f & g & rest & path & Hpop' & _ & _ & ->)];
      [congruence|].
    rewrite Hpop in Hpop'. by injection Hpop' as -> _.
  - destruct (step_cases _ _ _ _ _ _ _ _ Hstep)
      as (f & g & current & rest & Hpop' & Hcases).
    rewrite Hpop in Hpop'. injection Hpop' as -> ->. simpl.
    destruct Hcases as [[Hc ->]|(Hc & _ & nbrs & _ & Hrelax)];
      case_decide; try done.
    by apply relax_all_explored in Hrelax.
Qed.

End layout.

(** C7.  The entries of the frontier are [(f, g, node)] with [f = g + h]:
    a relaxation pushes the new cost through the key-0 edge plus the
    heuristic, that cost and the neighbour, and at every turn of a run each
    entry is the start entry [(0, 0, start)] or has this form.  The
    frontier pops in ascending order of [(f, g, node)]: the popped entry
    has the lowest [f], among equals the lowest [g], among those the lowest
    node identifier, and it is the entry the turn acts on.  Hence the
    outcome does not depend on how the frontier is laid out: continued from
    two arrangements of one frontier the search returns the same path,
    cost and traces. *)
Theorem frontier_order_reproducible haversine_distance G start_node end_node
    weight end_coords :
  (∀ current current_g st neighbor st',
     relax haversine_distance G weight end_coords current current_g st
       neighbor = Ok st' →
     st' = st ∨
     ∃ c hn, key0_cost G weight current neighbor = Ok c ∧
       heuristic haversine_distance G weight end_coords neighbor = Ok hn ∧
       open_set st' =
         heappush (open_set st)
           (qadd (qadd current_g c) hn, qadd current_g c, neighbor)) ∧
  (∀ st,
     in_run haversine_distance G start_node end_node weight end_coords st →
     Forall (scored haversine_distance G start_node weight end_coords)
       (open_set st)) ∧
  (∀ st m r, heappop (open_set st) = Some (m, r) →
     open_set st ≡ₚ m :: r ∧ Forall (tuple_le m) (open_set st) ∧
     match astar_step haversine_distance G start_node end_node weight
             end_coords st with
     | Ok (inl (path, c, explored, edges)) =>
         m.2 = end_node ∧ c = Finite m.1.2 ∧
         explored = explored_nodes st ++ [m.2]
     | Ok (inr st') =>
         if decide (m.2 ∈ closed_set st)
         then open_set st' = r ∧ explored_nodes st' = explored_nodes st
         else explored_nodes st' = explored_nodes st ++ [m.2]
     | _ => True
     end) ∧
  (∀ fuel st1 st2,
     same_frontier st1 st2 → Forall entry_canon (open_set st1) →
     astar_loop haversine_distance G start_node end_node weight fuel
       end_coords st1
     = astar_loop haversine_distance G start_node end_node weight fuel
         end_coords st2).
Proof.
  split; [|split; [|split]].
  - intros current current_g st neighbor st' Hrelax.
    destruct (relax_pushes _ _ _ _ _ _ _ _ _ Hrelax)
      as [->|(c & hn & Hc & Hh & Hopen & _)]; [by left|].
    right. by exists c, hn.
  - apply in_run_scored.
  - intros st m r Hpop. split; [by apply heappop_perm|]. split.
    + eapply Forall_impl; [by eapply heappop_least|].
      intros e He. by apply entry_leb_spec.
    + by apply step_pops.
  - intros fuel st1 st2. apply astar_loop_layout.
Qed.

Lemma frontier_order_reproducible_witness :
  heappop tied_entries = Some ((2%Q, 1%Q, 4), [(3%Q, 1%Q, 2); (2%Q, 2%Q, 3)]) ∧
  Forall (tuple_le (2%Q, 1%Q, 4)) tied_entries ∧
  Forall (scored taxicab line_graph 1 "time" (0, 3)%Q)
    (open_set (initial_state 1)) ∧
  astar_loop taxicab line_graph 1 4 "time" 5 (0, 3)%Q
    (frontier_state tied_entries)
  = astar_loop taxicab line_graph 1 4 "time" 5 (0, 3)%Q
      (frontier_state (rev tied_entries)).
Proof.
  assert (heappop tied_entries
          = Some ((2%Q, 1%Q, 4), [(3%Q, 1%Q, 2); (2%Q, 2%Q, 3)])) as Hpop
    by reflexivity.
  destruct (frontier_order_reproducible taxicab line_graph 1 4 "time"
              (0, 3)%Q) as (_ & Hscored & Hleast & Hsame).
  split; [exact Hpop|].
  split; [exact (proj1 (proj2 (Hleast (frontier_state tied_entries) _ _
                                 Hpop)))|].
  split; [exact (Hscored _ (run_initial _ _ _ _ _ _))|].
  apply Hsame.
  - repeat split. simpl. apply Permutation_rev.
  - repeat constructor.
Defined.

(** ** The weighting scheme and admissibility *)

Lemma qmul_correct (a b : Q) : (qmul a b == a * b)%Q.
Proof. apply Qred_correct. Qed.

Lemma qdiv_correct (a b : Q) : (qdiv a b == a / b)%Q.
Proof. apply Qred_correct. Qed.

Lemma time_of_correct (len speed : Q) :
  (time_of len speed == len / 1000 / speed * 3600)%Q.
Proof. unfold time_of. by rewrite qmul_correct, !qdiv_correct. Qed.

Lemma pollution_of_correct (len m p : Q) :
  (pollution_of len m p == len * m * p)%Q.
Proof. unfold pollution_of. by rewrite !qmul_correct. Qed.

Lemma h_score_time (x : Q) : (h_score "time" x == x * (9 # 200))%Q.
Proof.
  unfold h_score. simpl. rewrite qdiv_correct.
  change MAX_SPEED_MPS with (200 # 9)%Q. field.
Qed.

Lemma h_score_pollution (x : Q) : h_score "pollution" x = x.
Proof. done. Qed.

Lemma table_lookup_elem key t v :
  table_lookup key t = Some v → (key, v) ∈ t.
Proof.
  induction t as [|[k w] rest IH]; [done|]. simpl. case_decide as Hk.
  - intros [= ->]. subst k. apply elem_of_cons. by left.
  - intros H. apply elem_of_cons. right. by apply IH.
Qed.

Lemma table_get_bound (P : Q → Prop) t highway v :
  Forall (λ p : string * Q, P p.2) t →
  table_get t highway = Ok v → P v.
Proof.
  intros Hall. rewrite Forall_forall in Hall. unfold table_get.
  destruct (table_lookup "default" t) as [dflt|] eqn:Hd; [|done]. simpl.
  apply table_lookup_elem in Hd.
  destruct highway as [q|s|l]; intros [= <-]; try by apply (Hall _ Hd).
  destruct (table_lookup s t) as [w|] eqn:Hs; simpl; [|by apply (Hall _ Hd)].
  apply table_lookup_elem in Hs. by apply (Hall _ Hs).
Qed.

(** No speed of the scheme exceeds 80 km/h, and every speed is positive. *)
Lemma speed_limits_bound :
  Forall (λ p : string * Q, (0 < p.2 ∧ p.2 <= 80)%Q) speed_limits_kmh.
Proof. repeat constructor; simpl; lra. Qed.

(** No pollution multiplier is below 1. *)
Lemma pollution_factors_bound :
  Forall (λ p : string * Q, (1 <= p.2)%Q) POLLUTION_FACTORS.
Proof. repeat constructor; simpl; lra. Qed.

Lemma weigh_edge_spec G u v d d' :
  weigh_edge G u v d = Ok d' →
  ∃ len speed mult pen,
    get d "length" (ANum 100) = ANum len ∧
    (0 < speed ∧ speed <= 80)%Q ∧ (1 <= mult)%Q ∧ (1 <= pen)%Q ∧
    d' !! "time" = Some (ANum (time_of len speed)) ∧
    d' !! "pollution" = Some (ANum (pollution_of len mult pen)).
Proof.
  unfold weigh_edge. intros H. inv_bind H. rename a into highway.
  inv_bind H. rename a into mult. inv_bind H. rename a into len.
  inv_bind H. rename a into speed. injection H as <-.
  exists len, speed, mult,
    (if bool_decide (G_degree G u > 2 ∨ G_degree G v > 2) then (11 # 10)%Q
     else 1%Q).
  split; [by destruct (get d "length" (ANum 100)); simplify_eq/=|].
  split; [by apply (table_get_bound (λ q, (0 < q ∧ q <= 80)%Q) _ highway _
                     speed_limits_bound)|].
  split; [by apply (table_get_bound (λ q, (1 <= q)%Q) _ highway _
                     pollution_factors_bound)|].
  split; [case_bool_decide; lra|].
  split; [by rewrite lookup_insert_eq|].
  do 3 (rewrite lookup_insert_ne by done). by rewrite lookup_insert_eq.
Qed.

Lemma weigh_edge_fuel G u v d : weigh_edge G u v d ≠ OutOfFuel.
Proof.
  unfold weigh_edge, table_get.
  destruct (get d "highway" (AStr "default")) as [q|s|[|s l]]; simpl;
    try done;
    destruct (get d "length" (ANum 100)); simpl; done.
Qed.

Lemma first_raise_None {A} (l : list (res A)) (x : res A) e :
  first_raise l = None → x ∈ l → x ≠ Raise e.
Proof.
  induction l as [|y t IH]; [by intros _ ?%elem_of_nil|].
  intros Hf [->|Hin]%elem_of_cons.
  - intros ->. done.
  - apply IH; [|done]. by destruct y.
Qed.

Lemma assoc_map_key {A B} (h : Z → A → B) (v : Z) (l : list (Z * A)) :
  assoc v (map (λ p : Z * A, (p.1, h p.1 p.2)) l) = h v <$> assoc v l.
Proof.
  induction l as [|[k a] t IH]; [done|]. simpl.
  case_decide; [by subst k|done].
Qed.

Lemma G_edge_elem G u v k d :
  G_edge G u v k = Ok d → (u, v, k, d) ∈ G_edges G.
Proof.
  unfold G_edge, G_edges. intros H. inv_bind H. rename a into nbrs.
  inv_bind H. rename a into keys.
  apply list_elem_of_bind. exists (u, nbrs). split.
  - apply list_elem_of_bind. exists (v, keys). split.
    + apply list_elem_of_bind. exists (k, d). split; [by apply list_elem_of_singleton|].
      apply elem_of_map_to_list. by destruct (keys !! k); simplify_eq/=.
    + apply assoc_elem. by destruct (assoc v nbrs); simplify_eq/=.
  - apply elem_of_map_to_list. by destruct (adj G !! u); simplify_eq/=.
Qed.

(** After the scheme has run, every edge carries the attributes the loop
    body computes from the edge as it was. *)
Lemma add_pollution_weights_edge G0 G :
  add_pollution_weights G0 = Ok G →
  nodes G = nodes G0 ∧
  ∀ u v k d', G_edge G u v k = Ok d' →
    ∃ d, G_edge G0 u v k = Ok d ∧ weigh_edge G0 u v d = Ok d'.
Proof.
  unfold add_pollution_weights.
  destruct (first_raise _) as [e|] eqn:Hfirst; [done|]. intros [= <-].
  split; [done|]. intros u v k d'. unfold G_edge at 1. simpl.
  rewrite map_lookup_imap. unfold G_edge.
  destruct (adj G0 !! u) as [nbrs|] eqn:Hu; [|done]. simpl.
  rewrite (assoc_map_key
             (λ w (keys : gmap Z edge_data),
                (λ d, from_ok d (weigh_edge G0 u w d)) <$> keys)).
  destruct (assoc v nbrs) as [keys|] eqn:Hv; [|done]. simpl.
  rewrite lookup_fmap. destruct (keys !! k) as [d|] eqn:Hk; [|done]. simpl.
  intros [= <-]. exists d. split; [done|].
  assert ((u, v, k, d) ∈ G_edges G0) as Hin.
  { apply G_edge_elem. unfold G_edge. rewrite Hu. simpl. rewrite Hv. simpl.
    by rewrite Hk. }
  pose proof (weigh_edge_fuel G0 u v d) as Hfuel.
  destruct (weigh_edge G0 u v d) as [d'|e|] eqn:Hw; [done| |done].
  exfalso. eapply (first_raise_None _ (Raise e)); [exact Hfirst| |done].
  apply list_elem_of_fmap. exists (u, v, k, d). by rewrite <- Hw.
Qed.

Section admissible.

Variable haversine_distance : Q → Q → Q → Q → Q.

(** The great-circle distance is a metric on coordinates; the search
    relies on no more than this of it. *)
Hypothesis distance_nonneg : ∀ lat1 lon1 lat2 lon2,
  (0 <= haversine_distance lat1 lon1 lat2 lon2)%Q.
Hypothesis distance_self : ∀ lat lon,
  (haversine_distance lat lon lat lon == 0)%Q.
Hypothesis distance_triangle : ∀ lat1 lon1 lat2 lon2 lat3 lon3,
  (haversine_distance lat1 lon1 lat3 lon3
   <= haversine_distance lat1 lon1 lat2 lon2
      + haversine_distance lat2 lon2 lat3 lon3)%Q.

Variables G0 G : graph.
Hypothesis weighted : add_pollution_weights G0 = Ok G.

(** Every edge is at least as long as the straight line between its end
    points. *)
Hypothesis length_bound : ∀ u v k d, G_edge G0 u v k = Ok d →
  ∃ nu nv len,
    nodes G0 !! u = Some nu ∧ nodes G0 !! v = Some nv ∧
    get d "length" (ANum 100) = ANum len ∧
    (haversine_distance (node_y nu) (node_x nu) (node_y nv) (node_x nv)
     <= len)%Q.

Variable goal : Z.
Variable goal_data : node_data.
Hypothesis goal_node : nodes G !! goal = Some goal_data.

Local Abbreviation to_goal nd :=
  (haversine_distance (node_y nd) (node_x nd)
     (node_y goal_data) (node_x goal_data)).



End admissible.


Lemma taxicab_nonneg lat1 lon1 lat2 lon2 :
  (0 <= taxicab lat1 lon1 lat2 lon2)%Q.
Proof.
  unfold taxicab. rewrite Qred_correct.
  pose proof (Qabs_nonneg (lat1 - lat2)). pose proof (Qabs_nonneg (lon1 - lon2)).
  lra.
Qed.


Lemma taxicab_triangle lat1 lon1 lat2 lon2 lat3 lon3 :
  (taxicab lat1 lon1 lat3 lon3
   <= taxicab lat1 lon1 lat2 lon2 + taxicab lat2 lon2 lat3 lon3)%Q.
Proof.
  unfold taxicab. rewrite !Qred_correct.
  assert (lat1 - lat3 == (lat1 - lat2) + (lat2 - lat3))%Q as -> by ring.
  assert (lon1 - lon3 == (lon1 - lon2) + (lon2 - lon3))%Q as -> by ring.
  pose proof (Qabs_triangle (lat1 - lat2) (lat2 - lat3)).
  pose proof (Qabs_triangle (lon1 - lon2) (lon2 - lon3)).
  lra.
Qed.

Lemma raw_road_lengths u v k d :
  G_edge raw_road u v k = Ok d →
  ∃ nu nv len,
    nodes raw_road !! u = Some nu ∧ nodes raw_road !! v = Some nv ∧
    get d "length" (ANum 100) = ANum len ∧
    (taxicab (node_y nu) (node_x nu) (node_y nv) (node_x nv) <= len)%Q.
Proof.
  unfold G_edge, raw_road. simpl.
  destruct (decide (u = 1)) as [->|Hu1].
  - rewrite lookup_insert_eq. simpl. case_decide as Hv; [|done]. subst v.
    simpl. destruct (decide (k = 0)) as [->|Hk].
    + rewrite lookup_singleton_eq. simpl. intros [= <-].
      exists (at_coords 0 0), (at_coords 0 100), 150%Q.
      repeat split; vm_compute; done.
    + by rewrite lookup_singleton_ne.
  - rewrite lookup_insert_ne by done.
    destruct (decide (u = 2)) as [->|Hu2].
    + by rewrite lookup_insert_eq.
    + rewrite lookup_insert_ne by done. by rewrite lookup_empty.
Qed.


(** ** The traces *)

Section tracing_tree.

Variable G : graph.
Variable start_node : Z.
Variable weight : string.

Local Abbreviation tree_path := (tree_path G start_node weight).

Lemma tree_path_closed cf C n l g :
  tree_path cf C n l g → ∀ m, m ∈ l → m ∈ C.
Proof.
  induction 1 as [|n p l gp d c Hn Hp _ IH Hd Hc]; intros m.
  - by intros ->%list_elem_of_singleton.
  - intros [Hm| ->%list_elem_of_singleton]%elem_of_app; [by apply IH|done].
Qed.

Lemma tree_path_links cf C n l g :
  tree_path cf C n l g →
  ∀ u v, (u, v) ∈ consecutive l → cf !! v = Some u.
Proof.
  induction 1 as [|n p l gp d c Hn Hp Hl IH Hd Hc]; intros u v.
  - by intros ?%elem_of_nil.
  - rewrite (consecutive_snoc l p n) by (by eapply tree_path_last).
    intros [Huv|[= -> ->]%list_elem_of_singleton]%elem_of_app;
      [by apply IH|done].
Qed.

(** A node has one branch: the predecessor links are a function. *)
Lemma tree_path_unique cf C C' n l l' g g' :
  cf !! start_node = None →
  tree_path cf C n l g → tree_path cf C' n l' g' → l = l' ∧ g = g'.
Proof.
  intros Hs H. revert l' g'.
  induction H as [|n p l gp d c Hn Hp _ IH Hd Hc]; intros l' g' H'.
  - inversion H' as [|n' p' l0 gp' d' c' Hn' Hp' Hl' Hd' Hc']; [done|].
    congruence.
  - inversion H' as [|n' p' l0 gp' d' c' Hn' Hp' Hl' Hd' Hc']; subst.
    + congruence.
    + rewrite Hp in Hp'. injection Hp' as <-.
      rewrite Hd in Hd'. injection Hd' as <-.
      rewrite Hc in Hc'. injection Hc' as <-.
      by destruct (IH _ _ Hl') as [-> ->].
Qed.

End tracing_tree.

Section tracing.

Variable haversine_distance : Q → Q → Q → Q → Q.
Variable G : graph.
Variables start_node end_node : Z.
Variable weight : string.
Variable end_coords : Q * Q.

Local Abbreviation relaxG := (relax haversine_distance G weight end_coords).
Local Abbreviation relax_allG :=
  (relax_all haversine_distance G weight end_coords).
Local Abbreviation stepG :=
  (astar_step haversine_distance G start_node end_node weight end_coords).
Local Abbreviation search_inv :=
  (search_inv haversine_distance G start_node weight end_coords).
Local Abbreviation running :=
  (running haversine_distance G start_node weight end_coords).
Local Abbreviation tracing := (tracing G start_node weight).

Lemma relax_tracing current current_g st neighbor st' :
  running st → tracing st → current ∈ closed_set st →
  relaxG current current_g st neighbor = Ok st' → tracing st'.
Proof.
  intros Hrun [Hsimple Hedges Hlinks Hfirst] Hcur Hrelax.
  destruct (relax_cases _ _ _ _ _ _ _ _ _ Hrelax)
    as [[-> _]|(Hm & d & c & hn & Hd & Hc & Hh & Hbetter & ->)]; [done|].
  split; simpl.
  - intros n Hn. destruct (Hsimple n Hn) as (l & g & Hl & Hnd).
    exists l, g. split; [by apply tree_path_insert|done].
  - intros u v [Huv|[= -> ->]%list_elem_of_singleton]%elem_of_app.
    + by apply Hedges.
    + split; [done|]. split.
      * intros ->. apply Hm. apply Hrun.
      * split; [by intros ->|by exists d].
  - intros n p. destruct (decide (n = neighbor)) as [->|Hn].
    + rewrite lookup_insert_eq. intros [= <-].
      apply elem_of_app. right. by apply list_elem_of_singleton.
    + rewrite lookup_insert_ne by done. intros Hp.
      apply elem_of_app. left. by apply Hlinks.
  - done.
Qed.

Lemma relax_all_tracing nbrs current current_g st st' :
  running st → tracing st → current ∈ closed_set st →
  g_scores st !! current = Some current_g →
  relax_allG current current_g st nbrs = Ok st' → tracing st'.
Proof.
  revert st. induction nbrs as [|m rest IH]; intros st Hrun Htr Hcur Hg; simpl.
  - by intros [= <-].
  - intros H. inv_bind H. rename a into st1.
    destruct (relax_frame _ _ _ _ _ _ _ _ _ E) as (HC & _ & Hgs).
    apply (IH st1).
    + by eapply relax_running.
    + by eapply relax_tracing.
    + by rewrite HC.
    + by rewrite Hgs.
    + done.
Qed.

Lemma close_tracing st f g current rest :
  search_inv st → (st = initial_state start_node ∨ tracing st) →
  heappop (open_set st) = Some ((f, g, current), rest) →
  current ∉ closed_set st →
  tracing (closed_state st rest current).
Proof.
  intros Hinv Htr Hpop Hcur.
  destruct Hinv as [->|Hrun].
  { simpl in Hpop. injection Hpop as <- <- <- <-. split; simpl.
    - intros n Hn. assert (n = start_node) as ->.
      { destruct (elem_of_close_inv _ _ _ Hn) as [?|H]; [done|].
        by apply not_elem_of_empty in H. }
      exists [start_node], 0%Q. split; [constructor; apply elem_of_close_l|].
      apply NoDup_singleton.
    - intros u v H. by apply elem_of_nil in H.
    - intros n p. by rewrite lookup_empty.
    - done. }
  destruct Htr as [->|[Hsimple Hedges Hlinks Hfirst]].
  { destruct Hrun as [Hstart _ _ _ _ _]. simpl in Hstart.
    by apply not_elem_of_empty in Hstart. }
  destruct (pop_running _ _ _ _ _ _ _ _ _ _ Hrun Hpop Hcur) as [Hg [p Hp]].
  split; simpl.
  - intros n Hn. destruct (elem_of_close_inv _ _ _ Hn) as [->|HnC].
    + destruct (run_cf _ _ _ _ _ _ Hrun _ _ Hp)
        as (HpC & Hns & d & c & gp & Hd & Hc & Hgp & Hgc).
      destruct (Hsimple p HpC) as (l & g' & Hl & Hnd).
      exists (l ++ [current]), (qadd g' c). split.
      * apply (tp_step _ _ _ _ _ current p l g' d c);
          [apply elem_of_close_l|done| |done|done].
        eapply tree_path_mono; [apply close_subseteq|done].
      * apply NoDup_app. split; [done|]. split; [|apply NoDup_singleton].
        intros m Hm ->%list_elem_of_singleton.
        apply Hcur. by eapply tree_path_closed.
    + destruct (Hsimple n HnC) as (l & g' & Hl & Hnd).
      exists l, g'. split; [|done].
      eapply tree_path_mono; [apply close_subseteq|done].
  - intros u v Huv. destruct (Hedges u v Huv) as (Hu & Hrest).
    split; [by apply elem_of_close_r|done].
  - done.
  - destruct (explored_nodes st); [done|]. done.
Qed.

Lemma step_tracing st st' :
  search_inv st → (st = initial_state start_node ∨ tracing st) →
  stepG st = Ok (inr st') → tracing st'.
Proof.
  intros Hinv Htr Hstep.
  destruct (step_cases _ _ _ _ _ _ _ _ Hstep)
    as (f & g & current & rest & Hpop &
        [[Hcur ->]|(Hcur & Hend & nbrs & Hadj & Hrelax)]).
  - destruct Htr as [->|[Hsimple Hedges Hlinks Hfirst]];
      [by apply not_elem_of_empty in Hcur|].
    by split.
  - destruct (close_inv _ _ _ _ _ _ _ _ _ _ Hinv Hpop Hcur) as [Hrun Hg].
    eapply relax_all_tracing; [exact Hrun| | | |exact Hrelax].
    + by eapply close_tracing.
    + apply elem_of_close_l.
    + done.
Qed.

Lemma result_tracing st r :
  search_inv st → (st = initial_state start_node ∨ tracing st) →
  stepG st = Ok (inl r) → traced_result G start_node end_node r.
Proof.
  intros Hinv Htr Hstep.
  destruct (result_cases _ _ _ _ _ _ _ _ Hstep)
    as [[Hpop ->]|(f & g & rest & path & Hpop & Hcur & Hrec & ->)].
  - destruct Hinv as [->|Hrun]; [done|].
    destruct Htr as [->|[Hsimple Hedges Hlinks Hfirst]].
    { destruct Hrun as [Hstart _ _ _ _ _]. simpl in Hstart.
      by apply not_elem_of_empty in Hstart. }
    simpl. split; [done|]. split; [|split; [|done]].
    + intros n Hn. apply (run_explored _ _ _ _ _ _ Hrun) in Hn.
      destruct (run_closed _ _ _ _ _ _ Hrun n Hn) as (l & g & Hl & _).
      by eapply tree_path_reachable.
    + intros u v Huv. destruct (Hedges u v Huv) as (Hu & Hrest).
      split; [|done]. by apply (run_explored _ _ _ _ _ _ Hrun).
  - destruct (close_inv _ _ _ _ _ _ _ _ _ _ Hinv Hpop Hcur) as [Hrun Hg].
    pose proof (close_tracing _ _ _ _ _ Hinv Htr Hpop Hcur)
      as [Hsimple Hedges Hlinks Hfirst].
    simpl in *.
    assert (came_from st !! start_node = None) as Hs.
    { destruct (came_from st !! start_node) as [p|] eqn:Hp; [|done].
      by destruct (run_cf _ _ _ _ _ _ Hrun _ _ Hp) as (_ & ? & _). }
    destruct (run_closed _ _ _ _ _ _ Hrun end_node (elem_of_close_l _ _))
      as (l & g' & Hl & _ & Hlen). simpl in Hl, Hlen.
    rewrite (reconstruct_tree _ _ _ _ _ _ _ _ _ Hl Hs Hlen) in Hrec.
    injection Hrec as <-.
    destruct (Hsimple end_node (elem_of_close_l _ _)) as (l2 & g2 & Hl2 & Hnd).
    destruct (tree_path_unique _ _ _ _ _ _ _ _ _ _ _ Hs Hl Hl2) as [<- _].
    pose proof (run_explored _ _ _ _ _ _ Hrun) as [_ Hiff]. simpl in Hiff.
    split; [done|]. split; [|split].
    + intros n Hn. apply Hiff in Hn.
      destruct (run_closed _ _ _ _ _ _ Hrun n Hn) as (ln & gn & Hln & _).
      by eapply tree_path_reachable.
    + intros u v Huv. destruct (Hedges u v Huv) as (Hu & Hrest).
      split; [by apply Hiff|done].
    + split; [done|]. split; [by rewrite last_snoc|]. split.
      * intros n Hn. apply Hiff. by eapply tree_path_closed.
      * intros u v Huv. apply Hlinks. by eapply tree_path_links.
Qed.

End tracing.

(** What the traces of a returned tuple show. *)
Lemma astar_traced haversine_distance G start_node end_node weight r :
  astar_pathfinding haversine_distance G start_node end_node weight = Ok r →
  traced_result G start_node end_node r.
Proof.
  apply astar_invariant with (I := λ _, tracing G start_node weight).
  - intros ec st st'. apply step_tracing.
  - intros ec st r'. apply result_tracing.
Qed.

(** ** Completeness: what a failed search has visited *)

Lemma relax_all_frame_closed haversine_distance G weight end_coords
    nbrs current current_g st st' :
  relax_all haversine_distance G weight end_coords current current_g st nbrs
    = Ok st' →
  closed_set st' = closed_set st.
Proof.
  revert st. induction nbrs as [|m rest IH]; intros st; simpl.
  - by intros [= <-].
  - intros H. inv_bind H.
    destruct (relax_frame _ _ _ _ _ _ _ _ _ E) as (HC & _ & _).
    rewrite (IH _ H). done.
Qed.

Section complete.

Variable haversine_distance : Q → Q → Q → Q → Q.
Variable G : graph.
Variables start_node end_node : Z.
Variable weight : string.
Variable end_coords : Q * Q.

Local Abbreviation relaxG := (relax haversine_distance G weight end_coords).
Local Abbreviation relax_allG :=
  (relax_all haversine_distance G weight end_coords).
Local Abbreviation stepG :=
  (astar_step haversine_distance G start_node end_node weight end_coords).
Local Abbreviation search_inv :=
  (search_inv haversine_distance G start_node weight end_coords).
Local Abbreviation running :=
  (running haversine_distance G start_node weight end_coords).

Lemma relaxed_nil st current current' :
  relaxed G weight st current [] → relaxed G weight st current' [].
Proof.
  intros H x y Hx Hsucc _. apply (H x y Hx Hsucc). intros _ ?%elem_of_nil. done.
Qed.

Lemma relax_relaxed current current_g st neighbor todo st' :
  current ∈ closed_set st → g_scores st !! current = Some current_g →
  relaxed G weight st current (neighbor :: todo) →
  relaxG current current_g st neighbor = Ok st' →
  relaxed G weight st' current todo.
Proof.
  intros Hcur Hg Hrel Hrelax x y Hx Hsucc Htodo.
  destruct (relax_frame _ _ _ _ _ _ _ _ _ Hrelax) as (HC & _ & Hgs).
  rewrite HC in Hx |- *.
  destruct (decide (x = current ∧ y = neighbor)) as [[-> ->]|Hne].
  - destruct (relax_cases _ _ _ _ _ _ _ _ _ Hrelax)
      as [[-> [Hm|(d & c & g & Hd & Hc & Hgm & Hle)]]
         |(Hm & d & c & hn & Hd & Hc & Hh & Hbetter & ->)].
    + by left.
    + right. exists g. split; [done|]. intros d' c' gx Hd' Hc' Hgx.
      rewrite Hd in Hd'. injection Hd' as <-.
      rewrite Hc in Hc'. injection Hc' as <-.
      rewrite Hg in Hgx. injection Hgx as <-.
      pose proof (qadd_correct current_g c). lra.
    + right. exists (qadd current_g c). simpl.
      split; [by rewrite lookup_insert_eq|]. intros d' c' gx Hd' Hc' Hgx.
      rewrite Hd in Hd'. injection Hd' as <-.
      rewrite Hc in Hc'. injection Hc' as <-.
      rewrite lookup_insert_ne in Hgx by (by intros ->).
      rewrite Hg in Hgx. injection Hgx as <-.
      pose proof (qadd_correct current_g c). lra.
  - destruct (Hrel x y) as [Hy|(gy & Hgy & Hbound)]; [done|done| |by left|].
    { intros ->. intros [->|Hin]%elem_of_cons; [by apply Hne|by apply Htodo]. }
    destruct (relax_cases _ _ _ _ _ _ _ _ _ Hrelax)
      as [[-> _]|(Hm & d & c & hn & Hd & Hc & Hh & Hbetter & ->)].
    + right. by exists gy.
    + right. simpl. destruct (decide (y = neighbor)) as [->|Hy].
      * exists (qadd current_g c). split; [by rewrite lookup_insert_eq|].
        intros d' c' gx Hd' Hc' Hgx.
        rewrite lookup_insert_ne in Hgx by (by intros ->).
        specialize (Hbound d' c' gx Hd' Hc' Hgx).
        specialize (Hbetter gy Hgy). lra.
      * exists gy. split; [by rewrite lookup_insert_ne|].
        intros d' c' gx Hd' Hc' Hgx.
        rewrite lookup_insert_ne in Hgx by (by intros ->).
        by apply (Hbound d' c' gx).
Qed.

Lemma relax_all_relaxed nbrs current current_g st st' :
  current ∈ closed_set st → g_scores st !! current = Some current_g →
  relaxed G weight st current nbrs →
  relax_allG current current_g st nbrs = Ok st' →
  relaxed G weight st' current [].
Proof.
  revert st. induction nbrs as [|m rest IH]; intros st Hcur Hg Hrel; simpl.
  - by intros [= <-].
  - intros H. inv_bind H. rename a into st1.
    destruct (relax_frame _ _ _ _ _ _ _ _ _ E) as (HC & _ & Hgs).
    apply (IH st1); [by rewrite HC|by rewrite Hgs| |done].
    by eapply relax_relaxed.
Qed.

Lemma close_relaxed st rest current nbrs :
  (st = initial_state start_node ∨ relaxed G weight st end_node []) →
  current ∉ closed_set st → adj G !! current = Some nbrs →
  relaxed G weight (closed_state st rest current) current nbrs.*1.
Proof.
  intros Hrel Hcur Hadj x y Hx Hsucc Htodo. simpl in *.
  destruct (elem_of_close_inv _ _ _ Hx) as [->|HxC].
  - exfalso. apply Htodo; [done|].
    destruct Hsucc as (nbrs' & Hadj' & Hy). congruence.
  - destruct Hrel as [->|Hrel]; [by apply not_elem_of_empty in HxC|].
    destruct (Hrel x y HxC Hsucc) as [Hy|Hy].
    + intros _ ?%elem_of_nil. done.
    + left. by apply elem_of_close_r.
    + by right.
Qed.

Lemma step_expanded st st' :
  search_inv st →
  (st = initial_state start_node ∨ expanded G end_node weight st) →
  stepG st = Ok (inr st') → expanded G end_node weight st'.
Proof.
  intros Hinv Hexp Hstep.
  destruct (step_cases _ _ _ _ _ _ _ _ Hstep)
    as (f & g & current & rest & Hpop &
        [[Hcur ->]|(Hcur & Hend & nbrs & Hadj & Hrelax)]).
  - destruct Hexp as [->|[He Hrel]]; [by apply not_elem_of_empty in Hcur|].
    by split.
  - destruct (close_inv _ _ _ _ _ _ _ _ _ _ Hinv Hpop Hcur) as [Hrun Hg].
    pose proof (relax_all_frame_closed haversine_distance G weight end_coords
                  _ _ _ _ _ Hrelax) as HC.
    split.
    + rewrite HC. simpl. intros [?|He]%elem_of_close_inv; [done|].
      destruct Hexp as [->|[He' _]]; [by apply not_elem_of_empty in He|done].
    + apply relaxed_nil with (current := current).
      eapply relax_all_relaxed; [| | |exact Hrelax].
      * apply elem_of_close_l.
      * done.
      * apply close_relaxed; [|done|done].
        destruct Hexp as [->|[_ Hrel]]; [by left|by right].
Qed.

(** The closed nodes of a state with an empty frontier are closed under
    taking neighbours. *)
Lemma exhausted_closed st x y :
  running st → relaxed G weight st end_node [] → open_set st = [] →
  x ∈ closed_set st → successor G x y → y ∈ closed_set st.
Proof.
  intros Hrun Hrel Hempty Hx Hsucc.
  destruct (Hrel x y Hx Hsucc) as [Hy|(gy & Hgy & _)]; [|done|].
  { intros _ ?%elem_of_nil. done. }
  destruct (decide (y ∈ closed_set st)) as [Hy|Hy]; [done|].
  destruct (run_best _ _ _ _ _ _ Hrun y gy Hy Hgy) as (hn & _ & Hin).
  rewrite Hempty in Hin. by apply elem_of_nil in Hin.
Qed.

Lemma result_expanded st explored edges c :
  search_inv st →
  (st = initial_state start_node ∨ expanded G end_node weight st) →
  stepG st = Ok (inl (None, c, explored, edges)) →
  ¬ reachable G start_node end_node ∧
  ∀ n, reachable G start_node n → n ∈ explored.
Proof.
  intros Hinv Hexp Hstep.
  destruct (result_cases _ _ _ _ _ _ _ _ Hstep)
    as [[Hpop [= -> -> ->]]|(f & g & rest & path & _ & _ & _ & [=])].
  destruct Hinv as [->|Hrun]; [done|].
  destruct Hexp as [->|[He Hrel]].
  { destruct Hrun as [Hstart _ _ _ _ _]. simpl in Hstart.
    by apply not_elem_of_empty in Hstart. }
  assert (open_set st = []) as Hempty by (by destruct (open_set st)).
  assert (∀ n, reachable G start_node n → n ∈ closed_set st) as Hall.
  { unfold reachable. apply rtc_ind_r; [apply Hrun|].
    intros y z _ Hyz Hy. by eapply exhausted_closed. }
  split.
  - intros Hreach. by apply He, Hall.
  - intros n Hn. apply (run_explored _ _ _ _ _ _ Hrun). by apply Hall.
Qed.

End complete.

(** ** Optimality under a consistent heuristic *)

Lemma relax_all_frame haversine_distance G weight end_coords
    nbrs current current_g st st' :
  relax_all haversine_distance G weight end_coords current current_g st nbrs
    = Ok st' →
  closed_set st' = closed_set st ∧
  ∀ n, n ∈ closed_set st → g_scores st' !! n = g_scores st !! n.
Proof.
  revert st. induction nbrs as [|m rest IH]; intros st; simpl.
  - by intros [= <-].
  - intros H. inv_bind H.
    destruct (relax_frame _ _ _ _ _ _ _ _ _ E) as (HC & _ & Hgs).
    destruct (IH _ H) as [HC' Hgs']. split; [congruence|].
    intros n Hn. rewrite Hgs' by (by rewrite HC). by apply Hgs.
Qed.

Lemma tree_path_route G start_node weight cf C n l g :
  tree_path G start_node weight cf C n l g →
  ∃ w, route G weight start_node n w ∧ (w == g)%Q.
Proof.
  induction 1 as [|n p l gp d c Hn Hp _ (w & Hw & Hwg) Hd Hc].
  - exists 0%Q. split; [constructor|reflexivity].
  - exists (w + c)%Q. split; [by econstructor|].
    rewrite qadd_correct, Hwg. reflexivity.
Qed.

Section optimal.

Variable haversine_distance : Q → Q → Q → Q → Q.
Variable G : graph.
Variables start_node end_node : Z.
Variable weight : string.
Variable end_coords : Q * Q.
Variable h : Z → Q.
Hypothesis h_consistent :
  consistent haversine_distance G weight end_coords h.

Local Abbreviation stepG :=
  (astar_step haversine_distance G start_node end_node weight end_coords).
Local Abbreviation search_inv :=
  (search_inv haversine_distance G start_node weight end_coords).
Local Abbreviation running :=
  (running haversine_distance G start_node weight end_coords).
Local Abbreviation route := (route G weight start_node).

(** Along a route the heuristic drops by no more than the route costs. *)
Lemma route_telescope n w : route n w → (h start_node <= w + h n)%Q.
Proof.
  induction 1 as [|u v d c cu _ IH Hd Hc]; [lra|].
  pose proof (proj2 h_consistent u v d c Hd Hc). lra.
Qed.

(** Every route leaves the closed set, if at all, through an open node
    whose score bounds the route's. *)
Lemma frontier_bound st n w :
  running st → relaxed G weight st end_node [] →
  settled G start_node weight st → route n w →
  n ∈ closed_set st ∨
  ∃ y gy, (y ∉ closed_set st) ∧ g_scores st !! y = Some gy ∧
    (gy + h y <= w + h n)%Q.
Proof.
  intros Hrun Hrel Hset.
  induction 1 as [|u v d c cu Hu IH Hd Hc]; [left; apply Hrun|].
  pose proof (proj2 h_consistent u v d c Hd Hc) as Hcons.
  destruct (decide (v ∈ closed_set st)) as [Hv|Hv]; [by left|]. right.
  destruct IH as [HuC|(y & gy & Hy & Hgy & Hle)].
  - destruct (Hrel u v HuC (G_edge_successor _ _ _ _ _ Hd))
      as [?|(gv & Hgv & Hbound)]; [|done|].
    { intros _ ?%elem_of_nil. done. }
    destruct (run_closed _ _ _ _ _ _ Hrun u HuC) as (l & gu & _ & Hgu & _).
    specialize (Hbound d c gu Hd Hc Hgu).
    pose proof (Hset u gu cu HuC Hgu Hu).
    exists v, gv. repeat split; [done|done|lra].
  - exists y, gy. repeat split; [done|done|lra].
Qed.

(** The entry popped for an open node carries the least cost of a route
    to it. *)
Lemma pop_least st f g current rest w :
  running st → relaxed G weight st end_node [] →
  settled G start_node weight st →
  heappop (open_set st) = Some ((f, g, current), rest) →
  current ∉ closed_set st → route current w → (g <= w)%Q.
Proof.
  intros Hrun Hrel Hset Hpop Hcur Hroute.
  destruct (frontier_bound st current w Hrun Hrel Hset Hroute)
    as [?|(y & gy & Hy & Hgy & Hle)]; [done|].
  pose proof (heappop_perm _ _ _ Hpop) as Hperm.
  pose proof (heappop_least _ _ _ Hpop) as Hleast.
  assert ((f, g, current) ∈ open_set st) as Hin
    by (rewrite Hperm; apply elem_of_cons; by left).
  destruct (run_heap _ _ _ _ _ _ Hrun _ _ _ Hin Hcur)
    as (_ & _ & g0 & hn & _ & _ & Hh & ->).
  destruct (run_best _ _ _ _ _ _ Hrun y gy Hy Hgy) as (hy & Hhy & Hiny).
  rewrite Forall_forall in Hleast. specialize (Hleast _ Hiny).
  apply entry_leb_spec in Hleast. simpl in Hleast.
  pose proof (proj1 h_consistent _ _ Hh). pose proof (proj1 h_consistent _ _ Hhy).
  pose proof (qadd_correct g hn). pose proof (qadd_correct gy hy).
  destruct Hleast as [?|[? _]]; lra.
Qed.

Lemma close_settled st f g current rest :
  search_inv st →
  (st = initial_state start_node ∨
   optimal_state G start_node end_node weight st) →
  heappop (open_set st) = Some ((f, g, current), rest) →
  current ∉ closed_set st →
  settled G start_node weight (closed_state st rest current) ∧
  ∀ w, route current w → (g <= w)%Q.
Proof.
  intros Hinv Hopt Hpop Hcur.
  destruct (close_inv _ _ _ _ _ _ _ _ _ _ Hinv Hpop Hcur) as [_ Hg].
  assert (∀ w, route current w → (g <= w)%Q) as Hleast.
  { destruct Hinv as [->|Hrun].
    - simpl in Hpop. injection Hpop as <- <- <- <-.
      intros w Hw%route_telescope. lra.
    - destruct Hopt as [->|[[_ Hrel] Hset]].
      { destruct Hrun as [Hstart _ _ _ _ _]. simpl in Hstart.
        by apply not_elem_of_empty in Hstart. }
      intros w. by eapply pop_least. }
  split; [|done]. intros n gn w Hn Hgn Hw. simpl in *.
  destruct (elem_of_close_inv _ _ _ Hn) as [->|HnC].
  - rewrite Hg in Hgn. injection Hgn as <-. by apply Hleast.
  - destruct Hopt as [->|[_ Hset]]; [by apply not_elem_of_empty in HnC|].
    by apply (Hset n gn w).
Qed.

Lemma step_optimal st st' :
  search_inv st →
  (st = initial_state start_node ∨
   optimal_state G start_node end_node weight st) →
  stepG st = Ok (inr st') →
  optimal_state G start_node end_node weight st'.
Proof.
  intros Hinv Hopt Hstep. split.
  - eapply step_expanded; [exact Hinv| |exact Hstep].
    destruct Hopt as [->|[? _]]; [by left|by right].
  - destruct (step_cases _ _ _ _ _ _ _ _ Hstep)
      as (f & g & current & rest & Hpop &
          [[Hcur ->]|(Hcur & Hend & nbrs & Hadj & Hrelax)]).
    + destruct Hopt as [->|[_ Hset]]; [by apply not_elem_of_empty in Hcur|].
      done.
    + destruct (close_settled _ _ _ _ _ Hinv Hopt Hpop Hcur) as [Hset _].
      destruct (relax_all_frame _ _ _ _ _ _ _ _ _ Hrelax) as [HC Hgs].
      intros n gn w Hn Hgn Hw. rewrite HC in Hn. rewrite Hgs in Hgn by done.
      by apply (Hset n gn w).
Qed.

Lemma result_optimal st path c explored edges :
  search_inv st →
  (st = initial_state start_node ∨
   optimal_state G start_node end_node weight st) →
  stepG st = Ok (inl (Some path, Finite c, explored, edges)) →
  ∀ w, route end_node w → (c <= w)%Q.
Proof.
  intros Hinv Hopt Hstep.
  destruct (result_cases _ _ _ _ _ _ _ _ Hstep)
    as [[_ [=]]|(f & g & rest & path' & Hpop & Hcur & _ & [= -> -> -> ->])].
  by destruct (close_settled _ _ _ _ _ Hinv Hopt Hpop Hcur) as [_ Hleast].
Qed.

End optimal.

(** ** The heuristic on a graph weighted by the scheme *)

Section scheme_consistent.

Variable haversine_distance : Q → Q → Q → Q → Q.
Hypothesis distance_nonneg : ∀ lat1 lon1 lat2 lon2,
  (0 <= haversine_distance lat1 lon1 lat2 lon2)%Q.
Hypothesis distance_triangle : ∀ lat1 lon1 lat2 lon2 lat3 lon3,
  (haversine_distance lat1 lon1 lat3 lon3
   <= haversine_distance lat1 lon1 lat2 lon2
      + haversine_distance lat2 lon2 lat3 lon3)%Q.

Variables G0 G : graph.
Hypothesis weighted : add_pollution_weights G0 = Ok G.
Hypothesis length_bound : ∀ u v k d, G_edge G0 u v k = Ok d →
  ∃ nu nv len,
    nodes G0 !! u = Some nu ∧ nodes G0 !! v = Some nv ∧
    get d "length" (ANum 100) = ANum len ∧
    (haversine_distance (node_y nu) (node_x nu) (node_y nv) (node_x nv)
     <= len)%Q.

Variable goal_data : node_data.

Lemma time_of_lower len speed :
  (0 <= len)%Q → (0 < speed)%Q → (speed <= 80)%Q →
  (len * (9 # 200) <= time_of len speed)%Q.
Proof.
  intros Hlen Hs0 Hs80. rewrite time_of_correct.
  assert (len / 1000 / speed * 3600 == (len * (36 # 10)) / speed)%Q
    as -> by (field; lra).
  apply Qle_shift_div_l; [done|].
  assert (0 <= len * (80 - speed))%Q by (apply Qmult_le_0_compat; lra).
  lra.
Qed.

Lemma pollution_of_lower len mult pen :
  (0 <= len)%Q → (1 <= mult)%Q → (1 <= pen)%Q →
  (len <= pollution_of len mult pen)%Q.
Proof.
  intros Hlen Hm Hp. rewrite pollution_of_correct.
  assert (0 <= len * (mult - 1))%Q by (apply Qmult_le_0_compat; lra).
  assert (0 <= (len * mult) * (pen - 1))%Q
    by (apply Qmult_le_0_compat; [apply Qmult_le_0_compat|]; lra).
  lra.
Qed.

(** On such a graph the heuristic of the search is consistent, under
    either criterion. *)
Lemma scheme_consistent key :
  key = "time" ∨ key = "pollution" →
  consistent haversine_distance G key (node_y goal_data, node_x goal_data)
    (heuristic_at haversine_distance G key goal_data).
Proof.
  intros Hkey.
  destruct (add_pollution_weights_edge _ _ weighted) as [Hnodes Hedges].
  split.
  - intros n hn. unfold heuristic, heuristic_at, G_node.
    destruct (nodes G !! n); [|done]. simpl. intros [= <-]. reflexivity.
  - intros u v d' c Hd' Hc.
    destruct (Hedges _ _ _ _ Hd') as (d & Hd & Hw).
    destruct (weigh_edge_spec _ _ _ _ _ Hw)
      as (len & speed & mult & pen & Hlen & [Hs0 Hs80] & Hm & Hp & Ht & Hpoll).
    destruct (length_bound _ _ _ _ Hd)
      as (nu & nv & len' & Hu & Hv & Hlen' & Hle).
    rewrite Hlen in Hlen'. injection Hlen' as <-.
    unfold heuristic_at. rewrite Hnodes, Hu, Hv.
    pose proof (distance_triangle (node_y nu) (node_x nu) (node_y nv)
                  (node_x nv) (node_y goal_data) (node_x goal_data)) as Htri.
    pose proof (distance_nonneg (node_y nu) (node_x nu) (node_y nv)
                  (node_x nv)) as Hpos.
    unfold edge_cost in Hc. unfold get at 1 in Hc.
    destruct Hkey as [-> | ->].
    + rewrite Ht in Hc. simpl in Hc. injection Hc as <-.
      rewrite !h_score_time.
      pose proof (time_of_lower len speed ltac:(lra) Hs0 Hs80). lra.
    + rewrite Hpoll in Hc. simpl in Hc. injection Hc as <-.
      rewrite !h_score_pollution.
      pose proof (pollution_of_lower len mult pen ltac:(lra) Hm Hp). lra.
Qed.

End scheme_consistent.

(** ** Properties of the search as a whole *)

Lemma astar_exhausted haversine_distance G start_node end_node weight
    c explored edges :
  astar_pathfinding haversine_distance G start_node end_node weight
    = Ok (None, c, explored, edges) →
  ¬ reachable G start_node end_node ∧
  ∀ n, reachable G start_node n → n ∈ explored.
Proof.
  intros Hrun.
  apply (astar_invariant haversine_distance G start_node end_node weight
           (λ _, expanded G end_node weight)
           (λ r, r.1.1.1 = None →
                 ¬ reachable G start_node end_node ∧
                 ∀ n, reachable G start_node n → n ∈ r.1.2)
           (None, c, explored, edges)); [| |done|done].
  - intros ec st st'. apply step_expanded.
  - intros ec st [[[p c'] x] e] Hinv Hexp Hstep. simpl. intros ->.
    by eapply result_expanded.
Qed.

(** X1.  The search always ends: its main loop finishes within two turns
    more than the graph has adjacency entries, and the path reconstruction
    within as many steps as nodes were explored, so that every call either
    returns a tuple or raises. *)
Theorem search_terminates haversine_distance G start_node end_node weight :
  (∃ r, astar_pathfinding haversine_distance G start_node end_node weight
          = Ok r) ∨
  (∃ e, astar_pathfinding haversine_distance G start_node end_node weight
          = Raise e).
Proof.
  pose proof (astar_total haversine_distance G start_node end_node weight).
  destruct (astar_pathfinding haversine_distance G start_node end_node weight);
    [left|right|done]; eauto.
Qed.

(** X2.  A returned path visits no node twice. *)
Theorem path_is_simple haversine_distance G start_node end_node weight
    path c explored edges :
  astar_pathfinding haversine_distance G start_node end_node weight
    = Ok (Some path, c, explored, edges) →
  NoDup path.
Proof. intros H%astar_traced. apply H. Qed.

Lemma path_is_simple_witness :
  astar_pathfinding taxicab line_graph 1 4 "time"
    = Ok (Some [1; 2; 3; 4], Finite 35, [1; 2; 3; 4], [(1, 2); (2, 3); (3, 4)]) ∧
  NoDup [1; 2; 3; 4].
Proof.
  assert (astar_pathfinding taxicab line_graph 1 4 "time"
    = Ok (Some [1; 2; 3; 4], Finite 35, [1; 2; 3; 4], [(1, 2); (2, 3); (3, 4)]))
    as Hrun by (vm_compute; reflexivity).
  split; [exact Hrun|].
  exact (path_is_simple taxicab line_graph 1 4 "time" _ _ _ _ Hrun).
Defined.

(** X3.  A returned path lies within the traces: each of its nodes is in
    the explored-nodes trace and each of its steps [(path[i], path[i+1])]
    is in the explored-edges trace. *)
Theorem path_within_traces haversine_distance G start_node end_node weight
    path c explored edges :
  astar_pathfinding haversine_distance G start_node end_node weight
    = Ok (Some path, c, explored, edges) →
  (∀ n, n ∈ path → n ∈ explored) ∧
  ∀ i u v, path !! i = Some u → path !! S i = Some v → (u, v) ∈ edges.
Proof.
  intros (_ & _ & _ & _ & _ & Hnodes & Hedges)%astar_traced.
  split; [done|]. intros i u v Hu Hv. apply Hedges.
  by eapply consecutive_lookup.
Qed.

Lemma path_within_traces_witness :
  astar_pathfinding taxicab line_graph 2 4 "pollution"
    = Ok (Some [2; 3; 4], Finite 20, [2; 3; 4], [(2, 3); (3, 4)]) ∧
  ((∀ n, n ∈ [2; 3; 4] → n ∈ [2; 3; 4]) ∧
   ∀ i u v, [2; 3; 4] !! i = Some u → [2; 3; 4] !! S i = Some v →
     (u, v) ∈ [(2, 3); (3, 4)]).
Proof.
  assert (astar_pathfinding taxicab line_graph 2 4 "pollution"
    = Ok (Some [2; 3; 4], Finite 20, [2; 3; 4], [(2, 3); (3, 4)]))
    as Hrun by (vm_compute; reflexivity).
  split; [exact Hrun|].
  exact (path_within_traces taxicab line_graph 2 4 "pollution" _ _ _ _ Hrun).
Defined.

(** X4.  The explored-nodes trace of a search that returns begins with the
    start node, holds only nodes reachable from the start and, when a path
    is returned, ends with the end node. *)
Theorem explored_trace_shape haversine_distance G start_node end_node weight
    path c explored edges :
  astar_pathfinding haversine_distance G start_node end_node weight
    = Ok (path, c, explored, edges) →
  head explored = Some start_node ∧
  (∀ n, n ∈ explored → reachable G start_node n) ∧
  (is_Some path → last explored = Some end_node).
Proof.
  intros (Hhead & Hreach & _ & Hpath)%astar_traced.
  split; [done|]. split; [done|]. intros [p ->]. apply Hpath.
Qed.

Lemma explored_trace_shape_witness :
  astar_pathfinding taxicab line_graph 2 4 "time"
    = Ok (Some [2; 3; 4], Finite 25, [2; 3; 4], [(2, 3); (3, 4)]) ∧
  head [2; 3; 4] = Some 2 ∧ last [2; 3; 4] = Some 4.
Proof.
  assert (astar_pathfinding taxicab line_graph 2 4 "time"
    = Ok (Some [2; 3; 4], Finite 25, [2; 3; 4], [(2, 3); (3, 4)]))
    as Hrun by (vm_compute; reflexivity).
  split; [exact Hrun|].
  destruct (explored_trace_shape taxicab line_graph 2 4 "time" _ _ _ _ Hrun)
    as (Hh & _ & Hl).
  exact (conj Hh (Hl (ex_intro _ _ eq_refl))).
Defined.

(** X5.  Every pair [(u, v)] of the explored-edges trace is a relaxation
    out of an explored node along a key-0 edge of the graph; it is never a
    self-loop and never leads back to the start node. *)
Theorem explored_edges_sound haversine_distance G start_node end_node weight
    path c explored edges u v :
  astar_pathfinding haversine_distance G start_node end_node weight
    = Ok (path, c, explored, edges) →
  (u, v) ∈ edges →
  u ∈ explored ∧ v ≠ start_node ∧ u ≠ v ∧ ∃ d, G_edge G u v 0 = Ok d.
Proof. intros (_ & _ & Hedges & _)%astar_traced. apply Hedges. Qed.

Lemma explored_edges_sound_witness :
  astar_pathfinding taxicab line_graph 1 3 "time"
    = Ok (Some [1; 2; 3], Finite 15, [1; 2; 3], [(1, 2); (2, 3)]) ∧
  2 ∈ [1; 2; 3] ∧ 3 ≠ 1 ∧ 2 ≠ 3.
Proof.
  assert (astar_pathfinding taxicab line_graph 1 3 "time"
    = Ok (Some [1; 2; 3], Finite 15, [1; 2; 3], [(1, 2); (2, 3)]))
    as Hrun by (vm_compute; reflexivity).
  split; [exact Hrun|].
  assert ((2, 3) ∈ [(1, 2); (2, 3)]) as Hin
    by (apply list_elem_of_In; right; left; reflexivity).
  destruct (explored_edges_sound taxicab line_graph 1 3 "time" _ _ _ _ 2 3
              Hrun Hin) as (H1 & H2 & H3 & _).
  exact (conj H1 (conj H2 H3)).
Defined.

(** X6.  A search that returns no path has explored exactly the nodes
    reachable from the start, the end node is not among them, and the cost
    it returns is infinite. *)
Theorem failed_search_complete haversine_distance G start_node end_node weight
    c explored edges :
  astar_pathfinding haversine_distance G start_node end_node weight
    = Ok (None, c, explored, edges) →
  c = Infinity ∧ ¬ reachable G start_node end_node ∧
  ∀ n, reachable G start_node n ↔ n ∈ explored.
Proof.
  intros Hrun.
  pose proof (astar_good _ _ _ _ _ _ Hrun) as Hgood. simpl in Hgood.
  destruct c as [c|]; [done|]. split; [done|].
  destruct (astar_traced _ _ _ _ _ _ Hrun) as (_ & Hreach & _).
  destruct (astar_exhausted _ _ _ _ _ _ _ _ Hrun) as [Hun Hall].
  split; [done|]. intros n. split; [apply Hall|apply Hreach].
Qed.

Lemma failed_search_complete_witness :
  astar_pathfinding taxicab line_graph 3 1 "time"
    = Ok (None, Infinity, [3; 4], [(3, 4)]) ∧
  ¬ reachable line_graph 3 1.
Proof.
  assert (astar_pathfinding taxicab line_graph 3 1 "time"
            = Ok (None, Infinity, [3; 4], [(3, 4)])) as Hrun
    by (vm_compute; reflexivity).
  split; [exact Hrun|].
  exact (proj1 (proj2 (failed_search_complete taxicab line_graph 3 1 "time"
                         _ _ _ Hrun))).
Defined.

(** X7.  On a well-formed graph holding the start and end nodes, the
    search returns a path exactly when a directed path leads from the start
    to the end. *)
Theorem path_found_iff_reachable haversine_distance G start_node end_node
    weight :
  wf_graph G weight →
  is_Some (adj G !! start_node) → is_Some (nodes G !! end_node) →
  reachable G start_node end_node ↔
  ∃ path c explored edges,
    astar_pathfinding haversine_distance G start_node end_node weight
      = Ok (Some path, Finite c, explored, edges).
Proof.
  intros Hwf Hs [d Hd]. split.
  - intros Hreach.
    pose proof (astar_total haversine_distance G start_node end_node weight)
      as Htotal.
    destruct (astar_pathfinding haversine_distance G start_node end_node
                weight) as [[[[path c] explored] edges]|e|] eqn:Hrun;
      [| |done].
    + pose proof (astar_good _ _ _ _ _ _ Hrun) as Hgood. simpl in Hgood.
      destruct path as [path|].
      * destruct c as [c|]; [|done]. by exists path, c, explored, edges.
      * destruct c as [c|]; [done|]. exfalso.
        by destruct (astar_exhausted _ _ _ _ _ _ _ _ Hrun) as [Hun _].
    + exfalso. revert Hrun. unfold astar_pathfinding, G_node. rewrite Hd.
      cbn [of_option mbind res_mbind res_bind].
      apply astar_loop_wf; [done|].
      unfold heap_in_graph. simpl. by constructor.
  - intros (path & c & explored & edges & Hrun).
    apply astar_good in Hrun as [(cf & C & Htree) _].
    by eapply tree_path_reachable.
Qed.

Lemma line_graph_wf weight :
  weight = "time" ∨ weight = "pollution" → wf_graph line_graph weight.
Proof.
  intros Hw u v (nbrs & Hn & Hv).
  assert (u = 1 ∨ u = 2 ∨ u = 3 ∨ u = 4) as Hu.
  { destruct (decide (u = 1)); [by left|].
    destruct (decide (u = 2)); [by auto|].
    destruct (decide (u = 3)); [by auto|].
    destruct (decide (u = 4)); [by auto|].
    exfalso. revert Hn. unfold line_graph. simpl.
    rewrite !lookup_insert_ne by done. by rewrite lookup_empty. }
  destruct Hw as [-> | ->];
    destruct Hu as [-> | [-> | [-> | ->]]]; vm_compute in Hn;
    injection Hn as <-; simpl in Hv; try (by apply elem_of_nil in Hv);
    apply list_elem_of_singleton in Hv as ->;
    (split; [vm_compute; eexists; reflexivity|]);
    (split; [vm_compute; eexists; reflexivity|]);
    eexists _, _; split; vm_compute; reflexivity.
Qed.

Lemma path_found_iff_reachable_witness :
  reachable line_graph 1 4 ↔
  ∃ path c explored edges,
    astar_pathfinding taxicab line_graph 1 4 "time"
      = Ok (Some path, Finite c, explored, edges).
Proof.
  apply (path_found_iff_reachable taxicab line_graph 1 4 "time").
  - apply line_graph_wf. by left.
  - vm_compute; eexists; reflexivity.
  - vm_compute; eexists; reflexivity.
Defined.

(** X8.  With a consistent heuristic the cost of a returned path is the
    least cost of any route from the start to the end over the edges the
    search reads (the key-0 edge of each node pair, costed under the
    criterion): no route is cheaper, and one costs exactly that. *)
Theorem search_optimal haversine_distance G start_node end_node weight h
    path c explored edges :
  (∀ d, nodes G !! end_node = Some d →
     consistent haversine_distance G weight (node_y d, node_x d) h) →
  astar_pathfinding haversine_distance G start_node end_node weight
    = Ok (Some path, Finite c, explored, edges) →
  (∀ w, route G weight start_node end_node w → (c <= w)%Q) ∧
  ∃ w, route G weight start_node end_node w ∧ (w == c)%Q.
Proof.
  intros Hcons Hrun. split.
  - revert Hrun. unfold astar_pathfinding, G_node.
    destruct (nodes G !! end_node) as [d|] eqn:Hd; [|done].
    cbn [of_option mbind res_mbind res_bind]. specialize (Hcons d eq_refl).
    intros Hrun.
    refine (astar_loop_invariant haversine_distance G start_node end_node
              weight (node_y d, node_x d)
              (optimal_state G start_node end_node weight)
              (λ r, ∀ p c', r.1.1.1 = Some p → r.1.1.2 = Finite c' →
                    ∀ w, route G weight start_node end_node w → (c' <= w)%Q)
              _ _ _ _ _ (or_introl eq_refl) (or_introl eq_refl) Hrun
              path c eq_refl eq_refl).
    + intros st st'. by apply step_optimal with (h := h).
    + intros st [[[p c1] x] e] Hinv Hopt Hstep p' c' Hp Hc. simpl in *.
      subst p c1. by eapply result_optimal.
  - apply astar_good in Hrun as [(cf & C & Htree) _].
    by eapply tree_path_route.
Qed.

(** X9.  On a graph weighted by the scheme, whose edges are each at least
    as long as the distance between their end points, the search under the
    time or the pollution criterion returns the least cost of any route
    over key-0 edges.  The distance is taken as the metric it is; the
    arithmetic is exact. *)
Theorem weighted_search_optimal haversine_distance G0 G start_node end_node
    weight path c explored edges :
  (∀ lat1 lon1 lat2 lon2, (0 <= haversine_distance lat1 lon1 lat2 lon2)%Q) →
  (∀ lat1 lon1 lat2 lon2 lat3 lon3,
     (haversine_distance lat1 lon1 lat3 lon3
      <= haversine_distance lat1 lon1 lat2 lon2
         + haversine_distance lat2 lon2 lat3 lon3)%Q) →
  add_pollution_weights G0 = Ok G →
  (∀ u v k d, G_edge G0 u v k = Ok d →
     ∃ nu nv len,
       nodes G0 !! u = Some nu ∧ nodes G0 !! v = Some nv ∧
       get d "length" (ANum 100) = ANum len ∧
       (haversine_distance (node_y nu) (node_x nu) (node_y nv) (node_x nv)
        <= len)%Q) →
  weight = "time" ∨ weight = "pollution" →
  astar_pathfinding haversine_distance G start_node end_node weight
    = Ok (Some path, Finite c, explored, edges) →
  ∀ w, route G weight start_node end_node w → (c <= w)%Q.
Proof.
  intros Hpos Htri Hweighted Hlen Hkey Hrun.
  assert (∃ d, nodes G !! end_node = Some d) as [d Hd].
  { revert Hrun. unfold astar_pathfinding, G_node.
    destruct (nodes G !! end_node) as [d|]; [by exists d|done]. }
  revert Hrun. unfold astar_pathfinding, G_node. rewrite Hd.
  cbn [of_option mbind res_mbind res_bind]. intros Hrun.
  pose proof (scheme_consistent haversine_distance Hpos Htri G0 G Hweighted
                Hlen d weight Hkey) as Hcons.
  refine (astar_loop_invariant haversine_distance G start_node end_node
            weight (node_y d, node_x d)
            (optimal_state G start_node end_node weight)
            (λ r, ∀ p c', r.1.1.1 = Some p → r.1.1.2 = Finite c' →
                  ∀ w, route G weight start_node end_node w → (c' <= w)%Q)
            _ _ _ _ _ (or_introl eq_refl) (or_introl eq_refl) Hrun
            path c eq_refl eq_refl).
  - intros st st'. by eapply step_optimal.
  - intros st [[[p c1] x] e] Hinv Hopt Hstep p' c' Hp Hc. simpl in *.
    subst p c1. by eapply result_optimal.
Qed.

Lemma weighted_search_optimal_witness :
  astar_pathfinding taxicab weighted_road 1 2 "time"
    = Ok (Some [1; 2], Finite (27 # 4), [1; 2], [(1, 2)]) ∧
  ∀ w, route weighted_road "time" 1 2 w → (27 # 4 <= w)%Q.
Proof.
  assert (astar_pathfinding taxicab weighted_road 1 2 "time"
            = Ok (Some [1; 2], Finite (27 # 4), [1; 2], [(1, 2)])) as Hrun
    by (vm_compute; reflexivity).
  split; [exact Hrun|].
  refine (weighted_search_optimal taxicab raw_road weighted_road 1 2 "time"
            _ _ _ _ taxicab_nonneg taxicab_triangle _ raw_road_lengths
            (or_introl eq_refl) Hrun).
  vm_compute; reflexivity.
Defined.

Lemma search_optimal_witness :
  astar_pathfinding taxicab weighted_road 1 2 "pollution"
    = Ok (Some [1; 2], Finite 150, [1; 2], [(1, 2)]) ∧
  ∀ w, route weighted_road "pollution" 1 2 w → (150 <= w)%Q.
Proof.
  assert (astar_pathfinding taxicab weighted_road 1 2 "pollution"
            = Ok (Some [1; 2], Finite 150, [1; 2], [(1, 2)])) as Hrun
    by (vm_compute; reflexivity).
  split; [exact Hrun|].
  refine (proj1 (search_optimal taxicab weighted_road 1 2 "pollution"
                   (heuristic_at taxicab weighted_road "pollution"
                      (at_coords 0 100)) _ _ _ _ _ Hrun)).
  intros d Hd.
  assert (d = at_coords 0 100) as ->
    by (vm_compute in Hd; by injection Hd as <-).
  apply (scheme_consistent taxicab taxicab_nonneg taxicab_triangle
           raw_road weighted_road); [vm_compute; reflexivity| |by right].
  apply raw_road_lengths.
Defined.

(** ** Unknown nodes and missing key-0 edges *)

(** X10.  An end node that is not in [G.nodes] makes the search raise
    [KeyError] before it starts; a start node without an adjacency entry,
    other than the end node, makes it raise [NetworkXError] on the first
    expansion.  Neither is reported as "no route". *)
Theorem unknown_node_raises haversine_distance G start_node end_node weight :
  nodes G !! end_node = None ∨
  (start_node ≠ end_node ∧ adj G !! start_node = None) →
  astar_pathfinding haversine_distance G start_node end_node weight
  = Raise (match nodes G !! end_node with
           | None => KeyError
           | Some _ => NetworkXError
           end).
Proof.
  intros H. unfold astar_pathfinding, G_node.
  destruct (nodes G !! end_node) as [d|] eqn:Hd; [|done].
  destruct H as [?|[Hne Hadj]]; [done|]. simpl.
  unfold astar_step. simpl.
  rewrite decide_False by (apply not_elem_of_empty).
  rewrite decide_False by done.
  unfold G_neighbors. by rewrite Hadj.
Qed.

Lemma unknown_node_raises_witness :
  astar_pathfinding taxicab line_graph 7 2 "time" = Raise NetworkXError ∧
  astar_pathfinding taxicab line_graph 2 7 "time" = Raise KeyError.
Proof.
  split.
  - refine (unknown_node_raises taxicab line_graph 7 2 "time" _).
    right. split; [done|]. vm_compute; reflexivity.
  - refine (unknown_node_raises taxicab line_graph 2 7 "time" _).
    left. vm_compute; reflexivity.
Defined.

(** X11.  The search needs the key-0 edge: when the first neighbour of the
    start node is joined to it by edges of other keys only, the search
    raises [KeyError], whatever those edges cost. *)
Theorem missing_key0_raises haversine_distance G start_node end_node weight
    neighbor keys rest :
  is_Some (nodes G !! end_node) →
  start_node ≠ end_node → neighbor ≠ start_node →
  adj G !! start_node = Some ((neighbor, keys) :: rest) →
  keys !! 0 = None →
  astar_pathfinding haversine_distance G start_node end_node weight
  = Raise KeyError.
Proof.
  intros [d Hd] Hne Hnb Hadj Hkeys. unfold astar_pathfinding, G_node.
  rewrite Hd. simpl. unfold astar_step. simpl.
  rewrite decide_False by (apply not_elem_of_empty).
  rewrite decide_False by done.
  unfold G_neighbors. rewrite Hadj. simpl. unfold relax. simpl.
  rewrite decide_False.
  - unfold G_edge. rewrite Hadj. simpl. rewrite decide_True by done.
    simpl. by rewrite Hkeys.
  - intros [?%elem_of_singleton|?%not_elem_of_empty]%elem_of_union; done.
Qed.

Lemma missing_key0_raises_witness :
  astar_pathfinding taxicab key1_graph 1 2 "time" = Raise KeyError.
Proof.
  refine (missing_key0_raises taxicab key1_graph 1 2 "time" 2
            {[1 := timed_edge 3 3]} [] _ _ _ _ _).
  - vm_compute; eexists; reflexivity.
  - done.
  - done.
  - vm_compute; reflexivity.
  - vm_compute; reflexivity.
Defined.

(** ** Route statistics *)

Lemma count_up_total key road_types :
  hist_total (count_up key road_types) = hist_total road_types + 1.
Proof.
  induction road_types as [|[k n] t IH]; [done|].
  unfold hist_total in *. simpl. destruct (attr_eqb k key); simpl; lia.
Qed.

Lemma stats_loop_total G path acc t :
  stats_loop G path acc = Ok t →
  hist_total (road_types_acc t)
  = hist_total (road_types_acc acc) + Z.of_nat (length (consecutive path)).
Proof.
  revert acc. induction path as [|u [|v rest] IH]; intros acc.
  - intros [= <-]. simpl. lia.
  - intros [= <-]. simpl. lia.
  - change (stats_loop G (u :: v :: rest) acc) with
      (edge_data ← G_edge G u v 0;
       distance ← as_num (get edge_data "length" (ANum 0));
       time ← as_num (get edge_data "time" (ANum 0));
       pollution ← as_num (get edge_data "pollution" (ANum 0));
       road_type ← hashable (get edge_data "road_type" (AStr "unknown"));
       stats_loop G (v :: rest)
         {| total_distance := qadd (total_distance acc) distance;
            total_time := qadd (total_time acc) time;
            total_pollution := qadd (total_pollution acc) pollution;
            road_types_acc := count_up road_type (road_types_acc acc) |}).
    intros H. inv_bind H. inv_bind H. inv_bind H. inv_bind H. inv_bind H.
    apply IH in H. simpl in H. rewrite H, count_up_total.
    change (consecutive (u :: v :: rest)) with ((u, v) :: consecutive (v :: rest)).
    simpl length. lia.
Qed.

Lemma consecutive_length path :
  path ≠ [] → Z.of_nat (length (consecutive path)) = Z.of_nat (length path) - 1.
Proof.
  intros Hne. unfold consecutive. rewrite length_zip_with.
  destruct path as [|a t]; [done|]. cbn [tail length]. lia.
Qed.

(** X12.  The road-type histogram of a route accounts for every segment
    once: its counts add up to the number of segments. *)
Theorem histogram_counts_segments G path route_name stats :
  path ≠ [] →
  calculate_route_stats G path route_name = Ok stats →
  hist_total (road_types stats) = num_segments stats.
Proof.
  intros Hne H. unfold calculate_route_stats in H. inv_bind H.
  injection H as <-. simpl. apply stats_loop_total in E. simpl in E.
  rewrite E, consecutive_length by done. lia.
Qed.

Lemma histogram_counts_segments_witness :
  [1; 2; 3; 4] ≠ [] ∧
  ∃ stats, calculate_route_stats line_graph [1; 2; 3; 4] "Route" = Ok stats ∧
           hist_total (road_types stats) = 3.
Proof.
  assert ([1; 2; 3; 4] ≠ @nil Z) as Hne by discriminate.
  split; [exact Hne|].
  eexists. split; [vm_compute; reflexivity|].
  refine (histogram_counts_segments line_graph [1; 2; 3; 4] "Route" _ Hne _).
  vm_compute; reflexivity.
Defined.

Lemma stats_typed_num d key :
  stats_typed d → key ∈ ["length"; "time"; "pollution"] →
  ∃ q, as_num (get d key (ANum 0)) = Ok q.
Proof.
  intros [Hnum _] Hkey. unfold get.
  destruct (d !! key) as [a|] eqn:Ha; simpl; [|by eexists].
  destruct (Hnum key Hkey a Ha) as [q ->]. by eexists.
Qed.

Lemma stats_typed_hashable d :
  stats_typed d →
  ∃ a, hashable (get d "road_type" (AStr "unknown")) = Ok a.
Proof.
  intros [_ Hrt]. unfold get.
  destruct (d !! "road_type") as [[q|s|l]|] eqn:Ha; simpl; try by eexists.
  by destruct (Hrt l).
Qed.

Lemma stats_loop_outcome G path acc :
  Forall (λ e : Z * Z, ∃ d, G_edge G e.1 e.2 0 = Ok d) (consecutive path) →
  ((∃ t, stats_loop G path acc = Ok t) ∨
   stats_loop G path acc = Raise TypeError) ∧
  (Forall (λ e : Z * Z, ∀ d, G_edge G e.1 e.2 0 = Ok d → stats_typed d)
     (consecutive path) →
   ∃ t, stats_loop G path acc = Ok t).
Proof.
  revert acc. induction path as [|u [|v rest] IH]; intros acc Hedges.
  - split; [left|intros _]; by eexists.
  - split; [left|intros _]; by eexists.
  - change (consecutive (u :: v :: rest))
      with ((u, v) :: consecutive (v :: rest)) in *.
    apply Forall_cons_1 in Hedges as [[d Hd] Hedges]. simpl in Hd.
    change (stats_loop G (u :: v :: rest) acc) with
      (edge_data ← G_edge G u v 0;
       distance ← as_num (get edge_data "length" (ANum 0));
       time ← as_num (get edge_data "time" (ANum 0));
       pollution ← as_num (get edge_data "pollution" (ANum 0));
       road_type ← hashable (get edge_data "road_type" (AStr "unknown"));
       stats_loop G (v :: rest)
         {| total_distance := qadd (total_distance acc) distance;
            total_time := qadd (total_time acc) time;
            total_pollution := qadd (total_pollution acc) pollution;
            road_types_acc := count_up road_type (road_types_acc acc) |}).
    rewrite Hd. cbn [mbind res_mbind res_bind]. split.
    + destruct (get d "length" (ANum 0)); simpl; [|by right..].
      destruct (get d "time" (ANum 0)); simpl; [|by right..].
      destruct (get d "pollution" (ANum 0)); simpl; [|by right..].
      destruct (get d "road_type" (AStr "unknown")); simpl;
        [apply IH; done|apply IH; done|by right].
    + intros [Ht Htyped]%Forall_cons_1. specialize (Ht d Hd).
      destruct (stats_typed_num d "length" Ht) as [q1 ->];
        [repeat constructor|].
      destruct (stats_typed_num d "time" Ht) as [q2 ->];
        [repeat constructor|].
      destruct (stats_typed_num d "pollution" Ht) as [q3 ->];
        [repeat constructor|].
      destruct (stats_typed_hashable d Ht) as [a ->].
      cbn [mbind res_mbind res_bind]. by apply IH.
Qed.

(** X13.  The statistics of a path the search returned never fail for a
    missing edge: every step of the path has its key-0 edge, so that
    [calculate_route_stats] either returns or raises [TypeError], and it
    returns whenever the added attributes of those edges are numbers (or
    absent) and their road type is not a list. *)
Theorem stats_of_found_path haversine_distance G start_node end_node weight
    path c explored edges route_name :
  astar_pathfinding haversine_distance G start_node end_node weight
    = Ok (Some path, c, explored, edges) →
  ((∃ stats, calculate_route_stats G path route_name = Ok stats) ∨
   calculate_route_stats G path route_name = Raise TypeError) ∧
  ((∀ i u v d, path !! i = Some u → path !! S i = Some v →
      G_edge G u v 0 = Ok d → stats_typed d) →
   ∃ stats, calculate_route_stats G path route_name = Ok stats).
Proof.
  intros Hrun. pose proof (astar_good _ _ _ _ _ _ Hrun) as Hgood.
  simpl in Hgood. destruct c as [c|]; [|done].
  destruct Hgood as [(cf & C & Htree) _].
  assert (Forall (λ e : Z * Z, ∃ d, G_edge G e.1 e.2 0 = Ok d)
            (consecutive path)) as Hedges.
  { eapply Forall_impl; [by eapply tree_path_edges|].
    intros e (d & _ & Hd & _). by exists d. }
  destruct (stats_loop_outcome G path
              {| total_distance := 0; total_time := 0; total_pollution := 0;
                 road_types_acc := [] |} Hedges) as [Hout Htyped].
  unfold calculate_route_stats. split.
  - destruct Hout as [[t ->]| ->]; [left; by eexists|by right].
  - intros Hall. destruct Htyped as [t ->]; [|by eexists].
    apply Forall_forall. intros [u v] (i & Hu & Hv)%consecutive_elem d Hd.
    by apply (Hall i u v d).
Qed.

Lemma stats_of_found_path_witness :
  astar_pathfinding taxicab line_graph 1 4 "time"
    = Ok (Some [1; 2; 3; 4], Finite 35, [1; 2; 3; 4], [(1, 2); (2, 3); (3, 4)]) ∧
  ((∃ stats, calculate_route_stats line_graph [1; 2; 3; 4] "Fastest Route"
             = Ok stats) ∨
   calculate_route_stats line_graph [1; 2; 3; 4] "Fastest Route"
   = Raise TypeError).
Proof.
  assert (astar_pathfinding taxicab line_graph 1 4 "time"
    = Ok (Some [1; 2; 3; 4], Finite 35, [1; 2; 3; 4], [(1, 2); (2, 3); (3, 4)]))
    as Hrun by (vm_compute; reflexivity).
  split; [exact Hrun|].
  exact (proj1 (stats_of_found_path taxicab line_graph 1 4 "time" _ _ _ _
                  "Fastest Route" Hrun)).
Defined.

(** ** The weighting scheme *)

Lemma G_edge_map_edges f G u v k :
  G_edge (map_edges f G) u v k =
  match G_edge G u v k with
  | Ok d => Ok (f u v d)
  | Raise e => Raise e
  | OutOfFuel => OutOfFuel
  end.
Proof.
  unfold G_edge, map_edges. simpl. rewrite map_lookup_imap.
  destruct (adj G !! u) as [nbrs|]; [|done]. simpl.
  rewrite (assoc_map_key
             (λ w (keys : gmap Z edge_data), f u w <$> keys)).
  destruct (assoc v nbrs) as [keys|]; [|done]. simpl.
  rewrite lookup_fmap. by destruct (keys !! k).
Qed.

Lemma G_neighbors_map_edges f G u :
  G_neighbors (map_edges f G) u = G_neighbors G u.
Proof.
  unfold G_neighbors, map_edges. simpl. rewrite map_lookup_imap.
  destruct (adj G !! u) as [nbrs|]; [|done]. simpl. f_equal.
  induction nbrs as [|[w keys] t IH]; [done|]. cbn. f_equal. exact IH.
Qed.

Lemma weigh_edge_keeps G u v d d' key :
  weigh_edge G u v d = Ok d' → key ∉ scheme_keys → d' !! key = d !! key.
Proof.
  unfold weigh_edge. intros H Hkey. inv_bind H. inv_bind H. inv_bind H.
  inv_bind H. injection H as <-.
  rewrite !lookup_insert_ne; [done|..]; intros <-; apply Hkey;
    unfold scheme_keys; repeat constructor.
Qed.

Lemma weigh_edge_ok G u v d :
  weighable (u, v, 0, d) ↔ ∃ d', weigh_edge G u v d = Ok d'.
Proof.
  unfold weighable, weigh_edge, table_get. simpl. split.
  - intros [[len Hlen] Hhw]. rewrite Hlen.
    destruct (get d "highway" (AStr "default")) as [q|s|[|s l]]; [| |done|];
      simpl; by eexists.
  - intros [d' H].
    destruct (get d "highway" (AStr "default")) as [q|s|[|s l]]; simpl in H;
      try done;
      (split; [|done]);
      destruct (get d "length" (ANum 100)); simpl in H; try done; by eexists.
Qed.

Lemma weigh_edge_raises G u v d e :
  weigh_edge G u v d = Raise e → e = IndexError ∨ e = TypeError.
Proof.
  unfold weigh_edge, table_get.
  destruct (get d "highway" (AStr "default")) as [q|s|[|s l]]; simpl;
    try (intros [= <-]; by left);
    destruct (get d "length" (ANum 100)); simpl; try done;
    intros [= <-]; by right.
Qed.

Lemma first_raise_Some {A} (l : list (res A)) e :
  first_raise l = Some e → Raise e ∈ l.
Proof.
  induction l as [|y t IH]; [done|]. simpl.
  destruct y as [a|e'|].
  - intros H. apply elem_of_cons. right. by apply IH.
  - intros [= ->]. apply elem_of_cons. by left.
  - intros H. apply elem_of_cons. right. by apply IH.
Qed.

(** X14.  The weighting scheme succeeds exactly when every edge has a
    numeric (or absent) length and a [highway] tag that is not an empty
    list; when it fails it raises [IndexError] (an empty tag list) or
    [TypeError] (a length that is not a number), nothing else. *)
Theorem scheme_succeeds_iff G0 :
  (Forall weighable (G_edges G0) ↔ ∃ G, add_pollution_weights G0 = Ok G) ∧
  ∀ e, add_pollution_weights G0 = Raise e → e = IndexError ∨ e = TypeError.
Proof.
  unfold add_pollution_weights.
  destruct (first_raise _) as [e|] eqn:Hfirst.
  - apply first_raise_Some in Hfirst.
    apply list_elem_of_fmap in Hfirst as ([[[u v] k] d] & Hw & Hin).
    simpl in Hw. symmetry in Hw. split.
    + split; [|by intros [G [=]]]. intros Hall. exfalso.
      rewrite Forall_forall in Hall. specialize (Hall _ Hin).
      assert (weighable (u, v, 0, d)) as Hok by exact Hall.
      apply (weigh_edge_ok G0) in Hok as [d' Hd']. congruence.
    + intros e' [= <-]. by eapply weigh_edge_raises.
  - split; [|done]. split; [by eexists|]. intros _.
    apply Forall_forall. intros [[[u v] k] d] Hin.
    assert (weighable (u, v, 0, d)) as Hok; [|exact Hok].
    apply (weigh_edge_ok G0).
    pose proof (weigh_edge_fuel G0 u v d) as Hfuel.
    destruct (weigh_edge G0 u v d) as [d'|e|] eqn:Hw; [by eexists| |done].
    exfalso. eapply (first_raise_None _ (Raise e)); [exact Hfirst| |done].
    apply list_elem_of_fmap. exists (u, v, k, d). by rewrite <- Hw.
Qed.

(** X15.  The weighting scheme changes no node, no neighbour list and no
    edge key, and on every edge it leaves all attributes alone but the four
    it writes ([pollution], [pollution_multiplier], [road_type], [time]);
    [length] and [highway] in particular are kept. *)
Theorem scheme_preserves G0 G :
  add_pollution_weights G0 = Ok G →
  nodes G = nodes G0 ∧
  (∀ u, G_neighbors G u = G_neighbors G0 u) ∧
  (∀ u v k d, G_edge G0 u v k = Ok d →
     ∃ d', G_edge G u v k = Ok d' ∧
           ∀ key, key ∉ scheme_keys → d' !! key = d !! key) ∧
  (∀ u v k d', G_edge G u v k = Ok d' → ∃ d, G_edge G0 u v k = Ok d).
Proof.
  intros Hw.
  destruct (add_pollution_weights_edge _ _ Hw) as [Hnodes Hedges].
  unfold add_pollution_weights in Hw.
  destruct (first_raise _) as [e|] eqn:Hfirst; [done|]. injection Hw as <-.
  split; [done|]. split; [intros u; apply G_neighbors_map_edges|]. split.
  - intros u v k d Hd. rewrite G_edge_map_edges, Hd. eexists. split; [done|].
    destruct (Hedges u v k _ ltac:(by rewrite G_edge_map_edges, Hd))
      as (d0 & Hd0 & Hwd).
    rewrite Hd in Hd0. injection Hd0 as <-. rewrite Hwd. simpl.
    intros key. by eapply weigh_edge_keeps.
  - intros u v k d'. rewrite G_edge_map_edges.
    destruct (G_edge G0 u v k); [by eexists|done|done].
Qed.

Lemma scheme_preserves_witness :
  add_pollution_weights raw_road = Ok weighted_road ∧
  nodes weighted_road = nodes raw_road ∧
  G_neighbors weighted_road 1 = G_neighbors raw_road 1.
Proof.
  assert (add_pollution_weights raw_road = Ok weighted_road) as Hw
    by (vm_compute; reflexivity).
  split; [exact Hw|].
  destruct (scheme_preserves raw_road weighted_road Hw) as (Hn & Hnb & _).
  exact (conj Hn (Hnb 1)).
Defined.
